(** * Voxify: the terminology trainer and the transcript cleaner

    A shallow embedding of the decision logic of [transcriptor.py]:
    [load_medical_database], [save_medical_database], the training worker
    [train_worker] of [initial_training_setup], and [clean_transcription].

    Text.  A Python [str] is modelled by [string].  The character classes
    below are the ones Python gives to the ASCII code points, and
    [Str.lower], [Str.split], [Str.capitalize] and the regular expression
    are Python's on ASCII text ([Str.is_ascii]) only: what they do to a
    character above 127 (left alone, neither letter, word character nor
    white space) is not what Python does to a non-ASCII code point.  A
    statement that depends on these classes carries the hypothesis that
    the text is ASCII.

    Sets.  The two sets [medical_terms] and [medical_phrases] are
    [gset string]; a [Counter] is a [gmap string nat]. *)

From Stdlib Require Import Ascii.
From stdpp Require Import gmap strings list fin_maps.

(** ** Characters *)

Module Char.

Definition code (c : ascii) : nat := nat_of_ascii c.

(** [a-z] of the regular expression. *)
Definition is_az (c : ascii) : bool :=
  (97 <=? code c)%nat && (code c <=? 122)%nat.

Definition is_AZ (c : ascii) : bool :=
  (65 <=? code c)%nat && (code c <=? 90)%nat.

Definition is_digit (c : ascii) : bool :=
  (48 <=? code c)%nat && (code c <=? 57)%nat.

(** [\w] of a [str] pattern, restricted to ASCII: letters, digits and
    underscore.  (Outside ASCII Python has further word characters; see
    the note on text at the head of the file.) *)
Definition is_word (c : ascii) : bool :=
  is_az c || is_AZ c || is_digit c || bool_decide (c = "_"%char).

(** White space of [str.strip()] and [str.split()]: tab, line feed,
    vertical tab, form feed, carriage return, the four separators
    0x1c..0x1f and the space. *)
Definition is_space (c : ascii) : bool :=
  ((9 <=? code c)%nat && (code c <=? 13)%nat)
  || ((28 <=? code c)%nat && (code c <=? 32)%nat).

(** The characters of [strip('.,;!?')]. *)
Definition is_punct (c : ascii) : bool :=
  bool_decide (c = "."%char) || bool_decide (c = ","%char) || bool_decide (c = ";"%char)
  || bool_decide (c = "!"%char) || bool_decide (c = "?"%char).

Definition lower (c : ascii) : ascii :=
  if is_AZ c then ascii_of_nat (code c + 32) else c.

Definition upper (c : ascii) : ascii :=
  if is_az c then ascii_of_nat (code c - 32) else c.

(** The code points below 128, on which the classes above are Python's. *)
Definition is_ascii (c : ascii) : bool := (code c <? 128)%nat.

End Char.

(** ** The string methods the program calls *)

Module Str.

Fixpoint all (p : ascii → bool) (s : string) : bool :=
  match s with
  | EmptyString => true
  | String c r => p c && all p r
  end.

Fixpoint any (p : ascii → bool) (s : string) : bool :=
  match s with
  | EmptyString => false
  | String c r => p c || any p r
  end.

Definition is_empty (s : string) : bool :=
  match s with EmptyString => true | String _ _ => false end.

(** A text of ASCII characters only. *)
Definition is_ascii (s : string) : bool := all Char.is_ascii s.

(** [s.lower()], for ASCII text. *)
Fixpoint lower (s : string) : string :=
  match s with
  | EmptyString => EmptyString
  | String c r => String (Char.lower c) (lower r)
  end.

(** [s.capitalize()]: first character upper-cased, the rest lower-cased. *)
Definition capitalize (s : string) : string :=
  match s with
  | EmptyString => EmptyString
  | String c r => String (Char.upper c) (lower r)
  end.

(** [s.lstrip(chars)], the characters given by a predicate. *)
Fixpoint lstrip (p : ascii → bool) (s : string) : string :=
  match s with
  | EmptyString => EmptyString
  | String c r => if p c then lstrip p r else s
  end.

(** [s.rstrip(chars)] *)
Fixpoint rstrip (p : ascii → bool) (s : string) : string :=
  match s with
  | EmptyString => EmptyString
  | String c r =>
      let r' := rstrip p r in
      if is_empty r' && p c then EmptyString else String c r'
  end.

(** [s.strip(chars)] *)
Definition strip (p : ascii → bool) (s : string) : string :=
  rstrip p (lstrip p s).

(** [s.split(sep)] for a one-character separator: always at least one
    field, empty fields kept. *)
Fixpoint split_on (sep : ascii) (s : string) : list string :=
  match s with
  | EmptyString => [EmptyString]
  | String c r =>
      if bool_decide (c = sep) then EmptyString :: split_on sep r
      else match split_on sep r with
           | f :: fs => String c f :: fs
           | [] => [String c EmptyString]
           end
  end.

(** Maximal runs of the characters satisfying [p], read right to left:
    the run that starts at the head of [s] (empty if the head does not
    satisfy [p]) and the runs after it. *)
Fixpoint runs_go (p : ascii → bool) (s : string) : string * list string :=
  match s with
  | EmptyString => (EmptyString, [])
  | String c r =>
      let '(w, ws) := runs_go p r in
      if p c then (String c w, ws)
      else (EmptyString, if is_empty w then ws else w :: ws)
  end.

Definition runs (p : ascii → bool) (s : string) : list string :=
  let '(w, ws) := runs_go p s in
  if is_empty w then ws else w :: ws.

(** [s.split()], for ASCII text: the maximal runs of characters that are
    not white space; no empty field. *)
Definition split (s : string) : list string :=
  runs (λ c, negb (Char.is_space c)) s.

(** [s[:n]] *)
Fixpoint prefix (n : nat) (s : string) : string :=
  match n, s with
  | S n', String c r => String c (prefix n' r)
  | _, _ => EmptyString
  end.

(** [sep.join(l)] *)
Fixpoint join (sep : string) (l : list string) : string :=
  match l with
  | [] => EmptyString
  | [x] => x
  | x :: xs => x +:+ sep +:+ join sep xs
  end.

End Str.

(** ** The regular expression of the tokenizer

    [re.findall(r'\b[a-z]+\b', text)], written out as the backtracking
    search the [re] module performs: at each position, from left to right,
    [\b], then [[a-z]+] taking as many letters as it can and giving them
    back one at a time, then [\b]; after a match the search resumes where
    the match ended, after a failure one character further. *)

Module Re.

Definition is_word_opt (c : option ascii) : bool :=
  match c with Some c => Char.is_word c | None => false end.

(** [\b] between the character before the position and the one at it
    ([None] at either end of the text): exactly one of the two is a
    word character. *)
Definition word_boundary (before after : option ascii) : bool :=
  xorb (is_word_opt before) (is_word_opt after).

Definition head (s : string) : option ascii :=
  match s with EmptyString => None | String c _ => Some c end.

(** The rest of [[a-z]+\b] once the letter [prev] has been taken:
    first try to take one letter more; if that leads nowhere, try to
    stop here.  Returns the letters taken from [s] and what is left. *)
Fixpoint more_letters (prev : ascii) (s : string) : option (string * string) :=
  let stop_here :=
    if word_boundary (Some prev) (head s) then Some (EmptyString, s)
    else None in
  match s with
  | EmptyString => stop_here
  | String c r =>
      if Char.is_az c then
        match more_letters c r with
        | Some (m, rest) => Some (String c m, rest)
        | None => stop_here
        end
      else stop_here
  end.

(** One attempt at the position whose preceding character is [prev]:
    the match, the text after it and the last character matched. *)
Definition match_here (prev : option ascii) (s : string)
  : option (string * string) :=
  match s with
  | EmptyString => None
  | String c r =>
      if word_boundary prev (Some c) && Char.is_az c then
        match more_letters c r with
        | Some (m, rest) => Some (String c m, rest)
        | None => None
        end
      else None
  end.

Fixpoint last_char (d : ascii) (s : string) : ascii :=
  match s with
  | EmptyString => d
  | String c r => last_char c r
  end.

(** The scan of [findall].  Every round consumes at least one
    character, so [S (length s)] rounds are enough. *)
Fixpoint findall_go (fuel : nat) (prev : option ascii) (s : string)
  : list string :=
  match fuel with
  | O => []
  | S fuel' =>
      match match_here prev s with
      | Some (m, rest) =>
          m :: findall_go fuel' (Some (last_char "a"%char m)) rest
      | None =>
          match s with
          | EmptyString => []
          | String c r => findall_go fuel' (Some c) r
          end
      end
  end.

Definition findall (s : string) : list string :=
  findall_go (S (String.length s)) None s.

End Re.

(** ** Program state *)

(** The three attributes of the application object that the core reads
    and writes. *)
Record app := App {
  medical_terms : gset string;
  medical_phrases : gset string;
  trained : bool
}.

(** [__init__], before [load_medical_database] is called. *)
Definition init : app :=
  {| medical_terms := ∅; medical_phrases := ∅; trained := false |}.

(** The file [voxify_medical_db.pkl], by what [pickle.load] makes of it:
    absent, present but not loadable, or a dictionary with the two sets
    under ['terms'] and ['phrases'].  The byte encoding of [pickle] is
    not modelled; that [pickle.load] returns what [pickle.dump] was given
    is taken from the library. *)
Inductive db_file :=
  | DbMissing
  | DbCorrupt
  | DbSaved (terms phrases : gset string).

(** What the file system does when the database is written: the write
    goes through, [open] raises (the file is not touched), or
    [pickle.dump] raises after [open] has truncated the file. *)
Inductive write_result := WriteOk | OpenFails | DumpFails.

Definition load_medical_database (self : app) (db : db_file) : app :=
  match db with
  | DbSaved terms phrases =>
      {| medical_terms := terms; medical_phrases := phrases; trained := true |}
  | DbCorrupt | DbMissing =>
      {| medical_terms := medical_terms self;
         medical_phrases := medical_phrases self;
         trained := false |}
  end.

Definition save_medical_database (w : write_result) (self : app) (db : db_file)
  : bool * db_file :=
  match w with
  | WriteOk => (true, DbSaved (medical_terms self) (medical_phrases self))
  | OpenFails => (false, db)
  | DumpFails => (false, DbCorrupt)
  end.

(** ** Training *)

(** A reference document found by the three [glob] calls, with what
    reading it gives: the contents of a [.txt] file, or the paragraphs of
    a Word document; [None] when the read raises (then the file is
    skipped). *)
Inductive ref_file :=
  | TxtFile (contents : option string)
  | WordFile (paragraphs : option (list string)).

Definition newline : string := String (ascii_of_nat 10) EmptyString.

Definition read_text (f : ref_file) : option string :=
  match f with
  | TxtFile contents => contents
  | WordFile paragraphs => Str.join newline <$> paragraphs
  end.

(** [text = text.lower(); words = re.findall(r'\b[a-z]+\b', text)], for
    ASCII text. *)
Definition tokenize (text : string) : list string :=
  Re.findall (Str.lower text).

(** [l[i]]; every use below is at an index inside the list. *)
Definition item (l : list string) (i : nat) : string := default "" (l !! i).

(** [for i in range(len(words) - 1): ... f"{words[i]} {words[i+1]}"] *)
Definition bigrams (words : list string) : list string :=
  (λ i, item words i +:+ " " +:+ item words (i + 1)) <$> seq 0 (length words - 1).

(** [for i in range(len(words) - 2): ...] *)
Definition trigrams (words : list string) : list string :=
  (λ i, item words i +:+ " " +:+ item words (i + 1) +:+ " " +:+ item words (i + 2))
    <$> seq 0 (length words - 2).

(** The three lists the loop over the files fills. *)
Record corpus := Corpus {
  all_words : list string;
  all_bigrams : list string;
  all_trigrams : list string
}.

(** One round of the loop over [text_files]. *)
Definition process_file (c : corpus) (f : ref_file) : corpus :=
  match read_text f with
  | None => c
  | Some text =>
      let words := tokenize text in
      {| all_words := all_words c ++ words;
         all_bigrams := all_bigrams c ++ bigrams words;
         all_trigrams := all_trigrams c ++ trigrams words |}
  end.

Definition collect (text_files : list ref_file) : corpus :=
  foldl process_file (Corpus [] [] []) text_files.

(** [collections.Counter(l)] *)
Definition Counter (l : list string) : gmap string nat :=
  foldl (λ m w, <[w := S (default 0 (m !! w))]> m) ∅ l.

(** [{key for key, count in freq.items() if cond(key, count)}] *)
Definition keys_where (cond : string → nat → bool) (freq : gmap string nat)
  : gset string :=
  dom (filter (λ kc, cond kc.1 kc.2 = true) freq).

(** The set [filler_words] of [train_worker]. *)
Definition training_filler_words : gset string :=
  list_to_set
    ["um"; "uh"; "like"; "you"; "know"; "mean"; "just"; "very";
     "really"; "quite"; "sort"; "kind"; "basically"; "actually";
     "literally"; "right"; "okay"; "well"; "gonna"; "the"; "and";
     "for"; "are"; "this"; "that"; "with"; "from"; "have"; "been"].

Inductive train_report :=
  | NoDocumentsFound   (* "No text or Word documents found in selected folder." *)
  | TrainingComplete   (* "Training Complete" *)
  | SaveFailed.        (* "Failed to save medical database." *)

Definition derive_terms (c : corpus) : gset string :=
  keys_where
    (λ word count,
       (3 <=? count)%nat && (3 <? String.length word)%nat
       && negb (bool_decide (word ∈ training_filler_words)))
    (Counter (all_words c)).

Definition derive_phrases (c : corpus) : gset string :=
  keys_where (λ _ count, (2 <=? count)%nat) (Counter (all_bigrams c))
  ∪ keys_where (λ _ count, (2 <=? count)%nat) (Counter (all_trigrams c)).

(** [train_worker], from the list of files found to the report shown. *)
Definition train_worker (text_files : list ref_file) (w : write_result)
    (self : app) (db : db_file) : app * db_file * train_report :=
  match text_files with
  | [] => (self, db, NoDocumentsFound)
  | _ :: _ =>
      let c := collect text_files in
      let self1 :=
        {| medical_terms := derive_terms c;
           medical_phrases := derive_phrases c;
           trained := trained self |} in
      let '(saved, db') := save_medical_database w self1 db in
      if saved then
        ({| medical_terms := medical_terms self1;
            medical_phrases := medical_phrases self1;
            trained := true |}, db', TrainingComplete)
      else (self1, db', SaveFailed)
  end.

(** ** Cleaning *)

(** The set [filler_words] of [clean_transcription]. *)
Definition cleaning_filler_words : gset string :=
  list_to_set
    ["um"; "uh"; "like"; "you know"; "i mean"; "sort of"; "kind of";
     "basically"; "actually"; "literally"; "right"; "okay"; "well"; "just"].

(** Its four entries that contain a space, and the set without them. *)
Definition multi_word_fillers : gset string :=
  list_to_set ["you know"; "i mean"; "sort of"; "kind of"].

Definition single_word_fillers : gset string :=
  cleaning_filler_words ∖ multi_word_fillers.

Section Cleaner.

(** The cleaner is written over the filler set it uses, so that it can
    be run with another one; [clean_transcription] below is the
    program's. *)
Variable filler_words : gset string.
Variable self : app.

(** [words[i].strip('.,;!?')] *)
Definition stripped (words : list string) (i : nat) : string :=
  Str.strip Char.is_punct (item words i).

Definition trigram_at (words : list string) (i : nat) : string :=
  stripped words i +:+ " " +:+ stripped words (i + 1)
    +:+ " " +:+ stripped words (i + 2).

Definition bigram_at (words : list string) (i : nat) : string :=
  stripped words i +:+ " " +:+ stripped words (i + 1).

Definition trigram_matches (words : list string) (i : nat) : bool :=
  (i <? length words - 2) && bool_decide (trigram_at words i ∈ medical_phrases self).

Definition bigram_matches (words : list string) (i : nat) : bool :=
  (i <? length words - 1)
  && (bool_decide (bigram_at words i ∈ medical_terms self)
      || bool_decide (bigram_at words i ∈ medical_phrases self)).

(** The test of the single-word branch. *)
Definition keeps_single (word : string) : bool :=
  bool_decide (word ∈ medical_terms self)
  || negb (bool_decide (word ∈ filler_words)).

(** One round of [while i < len(words)], on the cursor [i] and the list
    [kept].  ([matched] is still [False] wherever it is tested: the two
    branches that set it leave the round with [continue].) *)
Definition loop_step (words : list string) (s : nat * list string)
  : nat * list string :=
  let '(i, kept) := s in
  let word := stripped words i in
  if trigram_matches words i then
    (i + 3, kept ++ [word; stripped words (i + 1); stripped words (i + 2)])
  else if bigram_matches words i then
    (i + 2, kept ++ [word; stripped words (i + 1)])
  else
    (i + 1, if keeps_single word then kept ++ [word] else kept).

(** The loop, for at most [fuel] rounds. *)
Fixpoint while_loop (fuel : nat) (words : list string) (s : nat * list string)
  : nat * list string :=
  match fuel with
  | O => s
  | S fuel' =>
      if s.1 <? length words then while_loop fuel' words (loop_step words s)
      else s
  end.

(** [kept] when the loop is left; the cursor moves at every round, so
    [len(words)] rounds are enough. *)
Definition kept_words (words : list string) : list string :=
  (while_loop (length words) words (0, [])).2.

(** The body of [for sentence in sentences]: what is appended to
    [cleaned], if anything. *)
Definition clean_sentence (sentence : string) : option string :=
  match kept_words (Str.split (Str.lower sentence)) with
  | [] => None
  | k :: ks => Some (Str.join " " (Str.capitalize k :: ks))
  end.

(** [[s.strip() for s in text.split('.') if s.strip()]] *)
Definition sentences (text : string) : list string :=
  filter (λ s, Str.is_empty s = false)
         (Str.strip Char.is_space <$> Str.split_on "." text).

Definition cleaned (text : string) : list string :=
  omap clean_sentence (sentences text).

Definition clean_transcription_with (text : string) : string :=
  if negb (trained self) then text
  else match cleaned text with
       | [] => text
       | _ :: _ => Str.join ". " (cleaned text) +:+ "."
       end.

End Cleaner.

Definition clean_transcription (self : app) (text : string) : string :=
  clean_transcription_with cleaning_filler_words self text.

(** The scan described on the stripped words alone: a recursion on the
    list of words already lowercased and stripped, which decides at each
    word from that word and the next two, keeps words in that form, and
    never sees the words as they were written.  It is compared with the
    loop of the program below. *)
Fixpoint scan_stripped (filler_words : gset string) (self : app)
    (ws : list string) : list string :=
  match ws with
  | [] => []
  | a :: ws1 =>
      let single :=
        (if keeps_single filler_words self a then [a] else [])
          ++ scan_stripped filler_words self ws1 in
      match ws1 with
      | [] => single
      | b :: ws2 =>
          let pair :=
            if bool_decide (a +:+ " " +:+ b ∈ medical_terms self)
               || bool_decide (a +:+ " " +:+ b ∈ medical_phrases self)
            then a :: b :: scan_stripped filler_words self ws2
            else single in
          match ws2 with
          | [] => pair
          | c :: ws3 =>
              if bool_decide (a +:+ " " +:+ b +:+ " " +:+ c
                              ∈ medical_phrases self)
              then a :: b :: c :: scan_stripped filler_words self ws3
              else pair
          end
      end
  end.

(** ** Vocabulary of the statements *)

(** Occurrences of [w] in a list: the count a [Counter] holds for it. *)
Definition count (w : string) (l : list string) : nat :=
  length (filter (λ x, x = w) l).

(** A normalized single word: not empty, letters [a] to [z] only. *)
Definition is_token (t : string) : bool :=
  negb (Str.is_empty t) && Str.all Char.is_az t.

(** Two, or three, such words joined by single spaces. *)
Definition is_two_words (p : string) : Prop :=
  ∃ a b, is_token a = true ∧ is_token b = true ∧ p = a +:+ " " +:+ b.

Definition is_three_words (p : string) : Prop :=
  ∃ a b c, is_token a = true ∧ is_token b = true ∧ is_token c = true
           ∧ p = a +:+ " " +:+ b +:+ " " +:+ c.

Definition has_space (s : string) : bool :=
  Str.any (λ c, bool_decide (c = " "%char)) s.

Definition is_lowercase (s : string) : Prop := Str.lower s = s.

Definition has_period (s : string) : bool :=
  Str.any (λ c, bool_decide (c = "."%char)) s.

Fixpoint period_count (s : string) : nat :=
  match s with
  | EmptyString => 0
  | String c r => (if bool_decide (c = "."%char) then 1 else 0) + period_count r
  end.

Fixpoint space_count (s : string) : nat :=
  match s with
  | EmptyString => 0
  | String c r => (if bool_decide (c = " "%char) then 1 else 0) + space_count r
  end.

(** The shape of a trained vocabulary. *)
Record vocabulary_shape (self : app) : Prop := {
  shape_terms : ∀ t, t ∈ medical_terms self →
    is_token t = true ∧ is_lowercase t ∧ has_space t = false;
  shape_phrases : ∀ p, p ∈ medical_phrases self →
    (is_two_words p ∨ is_three_words p) ∧ has_space p = true;
  shape_disjoint : medical_terms self ## medical_phrases self
}.

(** What the loop over the files keeps true of its three lists. *)
Definition corpus_shape (c : corpus) : Prop :=
  Forall (λ w, is_token w = true) (all_words c)
  ∧ Forall is_two_words (all_bigrams c)
  ∧ Forall is_three_words (all_trigrams c).

(** Tokenization as the description has it: lowercase the text and take
    the maximal runs of letters, every other character separating. *)
Definition letter_runs (text : string) : list string :=
  Str.runs Char.is_az (Str.lower text).

(** The maximal runs of word characters (letters, digits, underscore) of
    the lowercased text that are made of letters only. *)
Definition letter_only_words (text : string) : list string :=
  filter (λ w, Str.all Char.is_az w = true)
         (Str.runs Char.is_word (Str.lower text)).

(** ** Concrete runs used below *)

(** A vocabulary in place before a training run, and the store holding
    it. *)
Definition prior_vocabulary : app :=
  {| medical_terms := {["diagnosis"]};
     medical_phrases := {["acute pain"]};
     trained := true |}.

Definition prior_store : db_file := DbSaved {["diagnosis"]} {["acute pain"]}.

(** A folder whose two documents cannot be read. *)
Definition unreadable_folder : list ref_file := [WordFile None; TxtFile None].

(** The application after a first training on one short note. *)
Definition trained_on_note : app :=
  (train_worker
     [TxtFile (Some "The patient is well. The patient is well.")]
     WriteOk init DbMissing).1.1.

(** The application after a first training on a document in which no
    word or phrase repeats. *)
Definition trained_on_greeting : app :=
  (train_worker [TxtFile (Some "hello world")] WriteOk init DbMissing).1.1.

Definition infarction_vocabulary : app :=
  {| medical_terms := ∅;
     medical_phrases := {["acute myocardial infarction"]};
     trained := true |}.

Definition infarction_words : list string :=
  Str.split (Str.lower "Um, the patient has acute myocardial infarction").


(** ** The queue of audio files and its buttons *)

(** The attributes and widget states that [add_to_queue], [clear_queue],
    [start_processing] and [reset_ui] read and write; a button is [true]
    when its state is ["normal"].  The text of the queue display and of
    the progress widgets is not modelled. *)
Record window := Window {
  audio_queue : list string;
  processing : bool;
  process_btn : bool;
  add_files_btn : bool;
  add_folder_btn : bool;
  clear_btn : bool
}.

(** The window as [__init__] and [setup_ui] leave it. *)
Definition initial_window : window :=
  {| audio_queue := []; processing := false;
     process_btn := false; add_files_btn := true;
     add_folder_btn := true; clear_btn := false |}.

(** [size > 100] for [size = os.path.getsize(p) / (1024 * 1024)]: the
    division by a power of two is exact, so the test is on the number of
    bytes. *)
Definition size_limit : N := 100 * (1024 * 1024).

Definition too_large (bytes : N) : bool := (size_limit <? bytes)%N.

Section Queue.

(** [os.path.getsize]; [None] when it raises. *)
Variable getsize : string → option N.

(** The loop of [add_to_queue] over [files]: the queue, the counter
    [added], and whether [getsize] raised (the loop is then left with the
    queue as it is at that point). *)
Fixpoint add_loop (files queue : list string) (added : nat)
  : list string * nat * bool :=
  match files with
  | [] => (queue, added, false)
  | file_path :: rest =>
      if bool_decide (file_path ∈ queue) then add_loop rest queue added
      else match getsize file_path with
           | None => (queue, added, true)
           | Some bytes =>
               if too_large bytes then add_loop rest queue added
               else add_loop rest (queue ++ [file_path]) (added + 1)
           end
  end.

(** [update_queue_display] measures every queued file again and raises
    if one of them cannot be measured. *)
Definition display_raises (queue : list string) : bool :=
  negb (forallb (λ file_path, bool_decide (is_Some (getsize file_path))) queue).

(** [add_to_queue(files)]; the boolean tells whether an exception left
    the method (the buttons are then as they were). *)
Definition add_to_queue (files : list string) (w : window) : window * bool :=
  let '(queue, added, raised) := add_loop files (audio_queue w) 0 in
  let w1 :=
    {| audio_queue := queue; processing := processing w;
       process_btn := process_btn w; add_files_btn := add_files_btn w;
       add_folder_btn := add_folder_btn w; clear_btn := clear_btn w |} in
  if raised then (w1, true)
  else if 0 <? added then
    if display_raises queue then (w1, true)
    else
      ({| audio_queue := queue; processing := processing w;
          process_btn := true; add_files_btn := add_files_btn w;
          add_folder_btn := add_folder_btn w; clear_btn := true |}, false)
  else (w1, false).

(** [add_files] and [add_folder], from what the dialog or the [glob]
    calls return: nothing happens on an empty selection (a folder without
    audio files only shows a warning). *)
Definition add_files (files : list string) (w : window) : window :=
  match files with
  | [] => w
  | _ :: _ => (add_to_queue files w).1
  end.

(** [clear_queue], with the answer to the confirmation dialog. *)
Definition clear_queue (yes : bool) (w : window) : window :=
  if yes then
    {| audio_queue := []; processing := processing w;
       process_btn := false; add_files_btn := add_files_btn w;
       add_folder_btn := add_folder_btn w; clear_btn := false |}
  else w.

(** [reset_ui] *)
Definition reset_ui (w : window) : window :=
  {| audio_queue := []; processing := false;
     process_btn := false; add_files_btn := true;
     add_folder_btn := true; clear_btn := false |}.

Inductive start_report := NoFilesInQueue | Declined | Started.

(** [start_processing], up to the start of the worker thread: [is_trained]
    is [self.trained] and [yes] the answer to "Continue anyway?". *)
Definition start_processing (is_trained yes : bool) (w : window)
  : window * start_report :=
  match audio_queue w with
  | [] => (w, NoFilesInQueue)
  | _ :: _ =>
      if negb is_trained && negb yes then (w, Declined)
      else
        ({| audio_queue := audio_queue w; processing := true;
            process_btn := false; add_files_btn := false;
            add_folder_btn := false; clear_btn := false |}, Started)
  end.

(** What can happen to the window: a click on one of the four buttons
    (possible only while the button is enabled) or the end of the worker
    thread, which calls [reset_ui]. *)
Inductive event :=
  | ClickAddFiles (files : list string)
  | ClickAddFolder (found : list string)
  | ClickClear (yes : bool)
  | ClickProcess (is_trained yes : bool)
  | WorkerDone.

Definition enabled (w : window) (e : event) : bool :=
  match e with
  | ClickAddFiles _ => add_files_btn w
  | ClickAddFolder _ => add_folder_btn w
  | ClickClear _ => clear_btn w
  | ClickProcess _ _ => process_btn w
  | WorkerDone => processing w
  end.

Definition handle (e : event) (w : window) : window :=
  match e with
  | ClickAddFiles files => add_files files w
  | ClickAddFolder found => add_files found w
  | ClickClear yes => clear_queue yes w
  | ClickProcess is_trained yes => (start_processing is_trained yes w).1
  | WorkerDone => reset_ui w
  end.

Inductive reachable : window → Prop :=
  | reachable_init : reachable initial_window
  | reachable_step w e :
      reachable w → enabled w e = true → reachable (handle e w).

(** Every queued file was measured and is within the limit. *)
Definition within_limit (file_path : string) : Prop :=
  ∃ bytes, getsize file_path = Some bytes ∧ too_large bytes = false.

(** What holds of the window between two events. *)
Record window_invariant (w : window) : Prop := {
  inv_nodup : NoDup (audio_queue w);
  inv_limit : Forall within_limit (audio_queue w);
  inv_process : process_btn w = true → audio_queue w ≠ [];
  inv_clear : clear_btn w = process_btn w;
  inv_busy : processing w = true →
    process_btn w = false ∧ add_files_btn w = false ∧ add_folder_btn w = false;
  inv_idle : processing w = false →
    add_files_btn w = true ∧ add_folder_btn w = true
}.

End Queue.

(** ** The batch worker *)

(** What happens when the output file of an audio file is written:
    [open] and [f.write] both go through; [open] raises and the file is
    neither created nor touched; or [open] has created or emptied the
    file and the write raises, leaving in it the first [flushed]
    characters of the text (none if nothing reached the file). *)
Inductive file_write :=
  | Written
  | OpenRaises
  | WriteRaises (flushed : nat).

Section Worker.

(** The collaborators of the worker: the speech-to-text model ([None]
    when transcription raises), the two path functions, the time
    [datetime.now()] shows when the transcript of a file is formatted, and
    how the write of the output of each audio file of the queue ends. *)
Variable transcribe : string → option string.
Variable basename : string → string.
Variable splitext0 : string → string.
Variable path_join : string → string → string.
Variable generated_at : string → string.
Variable writing : string → file_write.

Variable self : app.
Variable output_dir : string.

Definition output_file (audio_file : string) : string :=
  path_join output_dir (splitext0 (basename audio_file) +:+ ".txt").

(** The text written for one audio file. *)
Definition content (audio_file cleaned : string) : string :=
  "VOXIFY TRANSCRIPTION" +:+ newline
  +:+ "Generated: " +:+ generated_at audio_file +:+ newline
  +:+ "Source: " +:+ basename audio_file +:+ newline
  +:+ newline
  +:+ cleaned +:+ newline
  +:+ newline
  +:+ "---" +:+ newline
  +:+ "Medical AI Transcription by Voxify" +:+ newline.

(** One round of the loop of [worker] on the files of the output folder.
    An exception in [transcribe] or in [open] leaves the round with the
    folder untouched; an exception in [f.write] leaves it after [open]
    has emptied the file. *)
Definition process_audio (disk : gmap string string) (audio_file : string)
  : gmap string string :=
  match transcribe audio_file with
  | None => disk
  | Some raw =>
      let text := content audio_file (clean_transcription self raw) in
      match writing audio_file with
      | Written => <[output_file audio_file := text]> disk
      | OpenRaises => disk
      | WriteRaises flushed =>
          <[output_file audio_file := Str.prefix flushed text]> disk
      end
  end.

Definition worker (queue : list string) (disk : gmap string string)
  : gmap string string :=
  foldl process_audio disk queue.

(** The audio files whose round reaches [open] and gets the file
    opened. *)
Definition opened (audio_file : string) : bool :=
  match transcribe audio_file, writing audio_file with
  | Some _, Written | Some _, WriteRaises _ => true
  | _, _ => false
  end.

(** What such a round leaves in the output file. *)
Definition left_in_file (audio_file : string) : option string :=
  match transcribe audio_file with
  | None => None
  | Some raw =>
      let text := content audio_file (clean_transcription self raw) in
      match writing audio_file with
      | Written => Some text
      | OpenRaises => None
      | WriteRaises flushed => Some (Str.prefix flushed text)
      end
  end.

End Worker.


(** * Properties *)

(** ** The loop of the cleaner *)

Section CleanerFacts.

Variable filler_words : gset string.
Variable self : app.

Abbreviation step := (loop_step filler_words self).
Abbreviation loop := (while_loop filler_words self).

Lemma loop_step_cursor words i kept :
  i < (step words (i, kept)).1 ≤ i + 3.
Proof.
  unfold loop_step.
  destruct (trigram_matches self words i); [simpl; lia|].
  destruct (bigram_matches self words i); simpl; lia.
Qed.

Lemma loop_step_extends words i kept :
  ∃ more, (step words (i, kept)).2 = kept ++ more.
Proof.
  unfold loop_step.
  destruct (trigram_matches self words i); [by eexists|].
  destruct (bigram_matches self words i); [by eexists|].
  destruct (keeps_single filler_words self _); simpl.
  - by eexists.
  - exists []. by rewrite app_nil_r.
Qed.

Lemma while_loop_extends fuel words s :
  ∃ more, (loop fuel words s).2 = s.2 ++ more.
Proof.
  revert s. induction fuel as [|fuel IH]; intros [i kept]; cbn [while_loop fst snd].
  - exists []. by rewrite app_nil_r.
  - destruct (i <? length words); cbn [snd].
    + destruct (loop_step_extends words i kept) as [m1 Hm1].
      destruct (IH (step words (i, kept))) as [m2 Hm2].
      exists (m1 ++ m2). by rewrite Hm2, Hm1, app_assoc.
    + exists []. by rewrite app_nil_r.
Qed.

(** The loop is left within [len(words) - i] rounds. *)
Lemma while_loop_exits fuel words s :
  length words ≤ fuel + s.1 → length words ≤ (loop fuel words s).1.
Proof.
  revert s. induction fuel as [|fuel IH]; intros [i kept];
    cbn [while_loop fst snd]; [intros; lia|].
  intros Hfuel. destruct (Nat.ltb_spec i (length words)); [|done].
  apply IH. pose proof (loop_step_cursor words i kept). lia.
Qed.

Lemma while_loop_exited fuel words s :
  length words ≤ s.1 → loop fuel words s = s.
Proof.
  destruct fuel; [done|]. simpl. intros Hle.
  destruct (Nat.ltb_spec s.1 (length words)); [lia|done].
Qed.

Lemma while_loop_add a b words s :
  loop (a + b) words s = loop b words (loop a words s).
Proof.
  revert s. induction a as [|a IH]; intros s; simpl; [done|].
  destruct (Nat.ltb_spec s.1 (length words)); [apply IH|].
  by rewrite while_loop_exited.
Qed.

(** More rounds than needed change nothing. *)
Lemma while_loop_enough fuel extra words s :
  length words ≤ fuel + s.1 → loop (fuel + extra) words s = loop fuel words s.
Proof.
  intros Hfuel. rewrite while_loop_add.
  apply while_loop_exited. by apply while_loop_exits.
Qed.

(** Every state the loop goes through leads to the final [kept]. *)
Lemma kept_words_from n words s :
  loop n words (0, []) = s →
  kept_words filler_words self words = (loop (length words) words s).2.
Proof.
  intros <-. unfold kept_words.
  rewrite <- while_loop_add, (Nat.add_comm n).
  by rewrite while_loop_enough by (simpl; lia).
Qed.

Lemma trigram_step words n i kept :
  loop n words (0, []) = (i, kept) →
  trigram_matches self words i = true →
  ∃ rest, kept_words filler_words self words
          = kept ++ [stripped words i; stripped words (i + 1);
                     stripped words (i + 2)] ++ rest.
Proof.
  intros Hreach Htri. rewrite (kept_words_from _ _ _ Hreach).
  assert (i < length words) as Hi.
  { unfold trigram_matches in Htri. apply andb_true_iff in Htri as [Hlt _].
    apply Nat.ltb_lt in Hlt. lia. }
  destruct (length words) as [|fuel] eqn:Hlen; [lia|].
  cbn [while_loop fst snd]. rewrite Hlen.
  destruct (Nat.ltb_spec i (S fuel)); [|lia].
  unfold loop_step at 1. rewrite Htri.
  destruct (while_loop_extends fuel words
              (i + 3, kept ++ [stripped words i; stripped words (i + 1);
                               stripped words (i + 2)])) as [rest Hrest].
  exists rest. rewrite Hrest. cbn [snd].
  by rewrite <- app_assoc.
Qed.

Lemma take_item (words : list string) i :
  i < length words → take (S i) words = take i words ++ [item words i].
Proof.
  intros Hi. destruct (lookup_lt_is_Some_2 words i Hi) as [w Hw].
  unfold item. rewrite Hw. simpl. by apply take_S_r.
Qed.

Lemma take_item2 (words : list string) i :
  i + 1 < length words →
  take (i + 2) words = take i words ++ [item words i; item words (i + 1)].
Proof.
  intros Hi. replace (i + 2) with (S (i + 1)) by lia.
  rewrite take_item by done. rewrite Nat.add_1_r, take_item by lia.
  by rewrite <- app_assoc.
Qed.

Lemma take_item3 (words : list string) i :
  i + 2 < length words →
  take (i + 3) words
  = take i words ++ [item words i; item words (i + 1); item words (i + 2)].
Proof.
  intros Hi. replace (i + 3) with (S (i + 2)) by lia.
  rewrite take_item by done. rewrite take_item2 by lia.
  by rewrite <- app_assoc.
Qed.

(** Each round leaves the cursor inside the list or at its end, and
    appends to [kept] only stripped words it has just passed. *)
Lemma loop_step_sublist words i kept :
  i < length words →
  kept `sublist_of` (Str.strip Char.is_punct <$> take i words) →
  (step words (i, kept)).1 ≤ length words
  ∧ (step words (i, kept)).2
      `sublist_of` (Str.strip Char.is_punct <$> take (step words (i, kept)).1 words).
Proof.
  intros Hi Hsub. unfold loop_step.
  destruct (trigram_matches self words i) eqn:Htri.
  { apply andb_true_iff in Htri as [Hlt%Nat.ltb_lt _]. cbn [fst snd].
    split; [lia|]. rewrite take_item3, fmap_app by lia.
    by apply sublist_app. }
  destruct (bigram_matches self words i) eqn:Hbi.
  { apply andb_true_iff in Hbi as [Hlt%Nat.ltb_lt _]. cbn [fst snd].
    split; [lia|]. rewrite take_item2, fmap_app by lia.
    by apply sublist_app. }
  cbn [fst snd]. split; [lia|].
  rewrite Nat.add_1_r, take_item, fmap_app by done.
  destruct (keeps_single _ _ _); [by apply sublist_app|by apply sublist_inserts_r].
Qed.

Lemma while_loop_sublist fuel words s :
  s.1 ≤ length words →
  s.2 `sublist_of` (Str.strip Char.is_punct <$> take s.1 words) →
  (loop fuel words s).2 `sublist_of` (Str.strip Char.is_punct <$> words).
Proof.
  revert s. induction fuel as [|fuel IH]; intros [i kept]; simpl; intros Hi Hsub.
  - etrans; [exact Hsub|]. apply fmap_sublist, sublist_take.
  - destruct (Nat.ltb_spec i (length words)).
    + destruct (loop_step_sublist words i kept) as [H1 H2]; [done..|].
      apply IH; done.
    + etrans; [exact Hsub|]. apply fmap_sublist, sublist_take.
Qed.

Lemma kept_words_sublist words :
  kept_words filler_words self words
    `sublist_of` (Str.strip Char.is_punct <$> words).
Proof. apply while_loop_sublist; simpl; [lia|done]. Qed.

End CleanerFacts.

(** ** Strings *)

Lemma is_az_is_word c : Char.is_az c = true → Char.is_word c = true.
Proof. unfold Char.is_word. by intros ->. Qed.

Lemma is_az_not_space c : Char.is_az c = true → c ≠ " "%char.
Proof. intros Haz ->. by vm_compute in Haz. Qed.

Lemma is_az_lower c : Char.is_az c = true → Char.lower c = c.
Proof.
  unfold Char.lower, Char.is_az, Char.is_AZ. intros Haz.
  destruct (_ && _) eqn:HAZ in |- *; [|done].
  apply andb_true_iff in Haz as [H1 H2]. apply andb_true_iff in HAZ as [H3 H4].
  apply Nat.leb_le in H1, H4. lia.
Qed.

Lemma length_append (s1 s2 : string) :
  String.length (s1 +:+ s2) = String.length s1 + String.length s2.
Proof. induction s1 as [|c s1 IH]; simpl; [done|]. by rewrite IH. Qed.

Lemma append_not_empty (s : string) : s +:+ "." ≠ "".
Proof. by destruct s. Qed.

Lemma all_append p (s1 s2 : string) :
  Str.all p (s1 +:+ s2) = Str.all p s1 && Str.all p s2.
Proof. induction s1 as [|c s1 IH]; simpl; [done|]. by rewrite IH, andb_assoc. Qed.

Lemma any_append p (s1 s2 : string) :
  Str.any p (s1 +:+ s2) = Str.any p s1 || Str.any p s2.
Proof. induction s1 as [|c s1 IH]; simpl; [done|]. by rewrite IH, orb_assoc. Qed.

Lemma all_lower_fixed (s : string) : Str.all Char.is_az s = true → Str.lower s = s.
Proof.
  induction s as [|c s IH]; simpl; [done|].
  intros [Hc Hs]%andb_true_iff. by rewrite is_az_lower, IH.
Qed.

Lemma all_az_no_space (s : string) : Str.all Char.is_az s = true → has_space s = false.
Proof.
  unfold has_space. induction s as [|c s IH]; simpl; [done|].
  intros [Hc Hs]%andb_true_iff. rewrite IH by done.
  rewrite orb_false_r. apply bool_decide_eq_false. by apply is_az_not_space.
Qed.

(** ** The tokenizer *)

Lemma runs_go_cons p c (s : string) :
  Str.runs_go p (String c s)
  = if p c then (String c (Str.runs_go p s).1, (Str.runs_go p s).2)
    else (EmptyString, Str.runs p s).
Proof. unfold Str.runs. simpl. by destruct (Str.runs_go p s), (p c). Qed.

Lemma runs_go_nil p : Str.runs_go p EmptyString = (EmptyString, []).
Proof. done. Qed.

Arguments Str.runs_go : simpl never.

(** What [[a-z]+\b] returns after a first letter: the letters up to the
    end of the run of word characters, when that run is all letters. *)
Lemma more_letters_spec (s : string) prev :
  Char.is_az prev = true →
  match Re.more_letters prev s with
  | Some (m, rest) =>
      Str.all Char.is_az m = true
      ∧ (Str.runs_go Char.is_word s).1 = m
      ∧ (Str.runs_go Char.is_word s).2 = Str.runs Char.is_word rest
      ∧ s = m +:+ rest
  | None => Str.all Char.is_az (Str.runs_go Char.is_word s).1 = false
  end.
Proof.
  revert prev. induction s as [|c r IH]; intros prev Hprev.
  - simpl. unfold Re.word_boundary. simpl. by rewrite (is_az_is_word _ Hprev).
  - cbn [Re.more_letters]. rewrite runs_go_cons.
    unfold Re.word_boundary. cbn [Re.head Re.is_word_opt].
    rewrite (is_az_is_word _ Hprev).
    destruct (Char.is_az c) eqn:Hc.
    + rewrite (is_az_is_word _ Hc). cbn [xorb fst snd].
      specialize (IH c Hc). destruct (Re.more_letters c r) as [[m rest]|].
      * destruct IH as (Hall & Hrun & Hrest & ->).
        repeat split; simpl; [by rewrite Hc, Hall| by rewrite Hrun | done].
      * simpl. by rewrite Hc.
    + destruct (Char.is_word c) eqn:Hw; simpl.
      * by rewrite Hc.
      * repeat split. unfold Str.runs. rewrite runs_go_cons, Hw. done.
Qed.

Lemma append_empty_l (s : string) : "" +:+ s = s.
Proof. done. Qed.

Lemma append_String c (s1 s2 : string) : String c s1 +:+ s2 = String c (s1 +:+ s2).
Proof. done. Qed.

Lemma run_ends_at_boundary (m : string) c rest :
  Str.all Char.is_az m = true →
  (Str.runs_go Char.is_word (m +:+ String c rest)).1 = m →
  Char.is_word c = false.
Proof.
  induction m as [|a m IH]; cbn [Str.all].
  - intros _. rewrite append_empty_l, runs_go_cons. by destruct (Char.is_word c).
  - intros [Ha Hall]%andb_true_iff.
    rewrite append_String, runs_go_cons, (is_az_is_word _ Ha). cbn [fst].
    intros [= Hrun]. by apply IH.
Qed.

Lemma last_char_az d (m : string) :
  Char.is_az d = true → Str.all Char.is_az m = true →
  Char.is_az (Re.last_char d m) = true.
Proof.
  revert d. induction m as [|c m IH]; intros d Hd; simpl; [done|].
  intros [Hc Hm]%andb_true_iff. by apply IH.
Qed.

(** With enough rounds, [findall] returns the runs of word characters
    that are all letters; when the search starts inside a run, that run
    is lost. *)
Lemma findall_go_spec fuel prev (s : string) :
  String.length s < fuel →
  Re.findall_go fuel prev s
  = filter (λ w, Str.all Char.is_az w = true)
      (if Re.is_word_opt prev then (Str.runs_go Char.is_word s).2
       else Str.runs Char.is_word s).
Proof.
  revert prev s. induction fuel as [|fuel IH]; intros prev s Hfuel; [lia|].
  destruct s as [|c r].
  { simpl. by destruct (Re.is_word_opt prev). }
  cbn [Re.findall_go Re.match_here]. unfold Re.word_boundary.
  cbn [Re.is_word_opt]. simpl in Hfuel.
  destruct (Char.is_az c) eqn:Hc.
  - rewrite (is_az_is_word _ Hc). destruct (Re.is_word_opt prev) eqn:Hprev; simpl.
    + rewrite IH by lia. simpl. rewrite (is_az_is_word _ Hc).
      rewrite runs_go_cons, (is_az_is_word _ Hc). done.
    + pose proof (more_letters_spec r c Hc) as Hm.
      unfold Str.runs. rewrite runs_go_cons, (is_az_is_word _ Hc). simpl.
      destruct (Re.more_letters c r) as [[m rest]|].
      * destruct Hm as (Hall & Hrun & Hrest & Hr).
        rewrite filter_cons_True by (simpl; by rewrite Hc, Hrun, Hall).
        rewrite Hrun. f_equal.
        rewrite IH.
        2:{ rewrite Hr, length_append in Hfuel. lia. }
        simpl. rewrite (is_az_is_word _ (last_char_az c m Hc Hall)).
        rewrite Hrest. f_equal.
        destruct rest as [|c' rest']; [done|].
        rewrite runs_go_cons. unfold Str.runs. rewrite runs_go_cons.
        destruct (Char.is_word c') eqn:Hw; simpl; [|done].
        (* the match ended at a word boundary: [c'] is not a word character *)
        exfalso. subst r. by rewrite (run_ends_at_boundary m c' rest') in Hw.
      * rewrite filter_cons_False by (simpl; rewrite Hc; simpl; by rewrite Hm).
        rewrite IH by lia. simpl. by rewrite (is_az_is_word _ Hc).
  - rewrite andb_false_r. rewrite IH by lia. simpl.
    destruct (Char.is_word c) eqn:Hw.
    + destruct (Re.is_word_opt prev); unfold Str.runs;
        rewrite runs_go_cons, Hw; simpl; [done|].
      by rewrite filter_cons_False by (simpl; by rewrite Hc).
    + destruct (Re.is_word_opt prev); unfold Str.runs;
        rewrite !runs_go_cons, Hw; simpl; done.
Qed.

(** The search is over before the rounds run out: any larger number of
    rounds gives the same list. *)
Lemma findall_rounds_enough fuel (s : string) :
  String.length s < fuel → Re.findall_go fuel None s = Re.findall s.
Proof.
  intros Hfuel. unfold Re.findall. by rewrite !findall_go_spec by lia.
Qed.

Lemma tokenize_spec text : tokenize text = letter_only_words text.
Proof. unfold tokenize, Re.findall. by rewrite findall_go_spec by lia. Qed.

(** The runs are not empty and made of characters satisfying [p]. *)
Lemma runs_go_all p (s : string) :
  Str.all p (Str.runs_go p s).1 = true
  ∧ Forall (λ w, Str.is_empty w = false ∧ Str.all p w = true) (Str.runs_go p s).2.
Proof.
  induction s as [|c s [IH1 IH2]]; [by split|].
  rewrite runs_go_cons. destruct (p c) eqn:Hc; simpl.
  - by rewrite Hc, IH1.
  - split; [done|]. unfold Str.runs. destruct (Str.runs_go p s) as [w ws].
    simpl in *. destruct w; simpl; [done|]. by constructor.
Qed.

Lemma runs_all p (s : string) :
  Forall (λ w, Str.is_empty w = false ∧ Str.all p w = true) (Str.runs p s).
Proof.
  destruct (runs_go_all p s) as [H1 H2]. unfold Str.runs.
  destruct (Str.runs_go p s) as [w ws]. simpl in *.
  destruct w; simpl; [done|]. by constructor.
Qed.

Lemma tokenize_tokens text : Forall (λ w, is_token w = true) (tokenize text).
Proof.
  rewrite tokenize_spec. unfold letter_only_words.
  apply Forall_forall. intros w [Haz Hin]%list_elem_of_filter.
  pose proof (runs_all Char.is_word (Str.lower text)) as Hruns.
  rewrite Forall_forall in Hruns. destruct (Hruns w Hin) as [Hne _].
  unfold is_token. by rewrite Hne, Haz.
Qed.

(** ** Counters *)

Lemma count_cons w x (l : list string) :
  count w (x :: l) = (if decide (x = w) then 1 else 0) + count w l.
Proof.
  unfold count. rewrite filter_cons. by destruct (decide (x = w)).
Qed.

Lemma count_app w (l1 l2 : list string) :
  count w (l1 ++ l2) = count w l1 + count w l2.
Proof. unfold count. by rewrite filter_app, length_app. Qed.

Lemma count_pos w (l : list string) : 0 < count w l ↔ w ∈ l.
Proof.
  induction l as [|x l IH].
  - rewrite elem_of_nil. unfold count. simpl. lia.
  - rewrite count_cons, elem_of_cons. destruct (decide (x = w)) as [->|Hne].
    + split; [by left|lia].
    + rewrite Nat.add_0_l, IH. split; [by right|]. by intros [?|?].
Qed.

Lemma Counter_go (m : gmap string nat) (l : list string) w :
  foldl (λ m w, <[w := S (default 0 (m !! w))]> m) m l !! w
  = match count w l with
    | O => m !! w
    | S n => Some (default 0 (m !! w) + S n)
    end.
Proof.
  revert m. induction l as [|x l IH]; intros m; [done|].
  cbn [foldl]. rewrite IH, count_cons.
  destruct (decide (x = w)) as [->|Hne].
  - rewrite lookup_insert_eq. cbn [default].
    destruct (count w l); simpl; f_equal; lia.
  - by rewrite lookup_insert_ne.
Qed.

(** A [Counter] holds, for each element of the list, how often it occurs,
    and nothing for the others. *)
Lemma Counter_lookup (l : list string) w n :
  Counter l !! w = Some n ↔ n = count w l ∧ 0 < n.
Proof.
  unfold Counter. rewrite Counter_go, lookup_empty.
  destruct (count w l) as [|k]; simpl.
  - split; [done|lia].
  - split; [intros [= <-]; lia|intros [-> _]; done].
Qed.

Lemma elem_of_keys_where cond (freq : gmap string nat) w :
  w ∈ keys_where cond freq ↔ ∃ n, freq !! w = Some n ∧ cond w n = true.
Proof.
  unfold keys_where. rewrite elem_of_dom. unfold is_Some.
  setoid_rewrite map_lookup_filter_Some. naive_solver.
Qed.

Lemma elem_of_derive_terms c t :
  t ∈ derive_terms c
  ↔ 3 ≤ count t (all_words c) ∧ 3 < String.length t ∧ t ∉ training_filler_words.
Proof.
  unfold derive_terms. rewrite elem_of_keys_where.
  setoid_rewrite Counter_lookup. split.
  - intros (n & [-> Hpos] & Hcond).
    apply andb_true_iff in Hcond as [[H3 Hlen]%andb_true_iff Hfill].
    apply Nat.leb_le in H3. apply Nat.ltb_lt in Hlen.
    apply negb_true_iff, bool_decide_eq_false in Hfill. done.
  - intros (H3 & Hlen & Hfill). exists (count t (all_words c)).
    split; [split; [done|lia]|].
    apply andb_true_iff; split; [apply andb_true_iff; split|].
    + by apply Nat.leb_le.
    + by apply Nat.ltb_lt.
    + by apply negb_true_iff, bool_decide_eq_false.
Qed.

Lemma elem_of_count_threshold (l : list string) p :
  p ∈ keys_where (λ _ count, (2 <=? count)%nat) (Counter l) ↔ 2 ≤ count p l.
Proof.
  rewrite elem_of_keys_where. setoid_rewrite Counter_lookup. split.
  - intros (n & [-> _] & Hle). by apply Nat.leb_le.
  - intros Hle. exists (count p l). split; [split; [done|lia]|].
    by apply Nat.leb_le.
Qed.

Lemma elem_of_derive_phrases c p :
  p ∈ derive_phrases c
  ↔ 2 ≤ count p (all_bigrams c) ∨ 2 ≤ count p (all_trigrams c).
Proof.
  unfold derive_phrases. by rewrite elem_of_union, !elem_of_count_threshold.
Qed.

(** ** N-grams *)

Lemma item_elem_of (l : list string) i : i < length l → item l i ∈ l.
Proof.
  intros Hi. destruct (lookup_lt_is_Some_2 l i Hi) as [w Hw].
  unfold item. rewrite Hw. simpl. by eapply list_elem_of_lookup_2.
Qed.

Lemma bigrams_shape (words : list string) p :
  p ∈ bigrams words → ∃ a b, a ∈ words ∧ b ∈ words ∧ p = a +:+ " " +:+ b.
Proof.
  unfold bigrams. intros (i & -> & Hi)%list_elem_of_fmap.
  apply elem_of_seq in Hi.
  exists (item words i), (item words (i + 1)).
  split_and!; [apply item_elem_of; lia..|done].
Qed.

Lemma trigrams_shape (words : list string) p :
  p ∈ trigrams words →
  ∃ a b c, a ∈ words ∧ b ∈ words ∧ c ∈ words
           ∧ p = a +:+ " " +:+ b +:+ " " +:+ c.
Proof.
  unfold trigrams. intros (i & -> & Hi)%list_elem_of_fmap.
  apply elem_of_seq in Hi.
  exists (item words i), (item words (i + 1)), (item words (i + 2)).
  split_and!; [apply item_elem_of; lia..|done].
Qed.

Lemma process_file_shape c f : corpus_shape c → corpus_shape (process_file c f).
Proof.
  intros (Hw & Hb & Ht). unfold process_file.
  destruct (read_text f) as [text|]; [|done].
  pose proof (tokenize_tokens text) as Htok. rewrite Forall_forall in Htok.
  split_and!; simpl; apply Forall_app; split; try done.
  - by apply Forall_forall.
  - apply Forall_forall. intros p (a & b & Ha & Hb' & ->)%bigrams_shape.
    exists a, b. auto.
  - apply Forall_forall. intros p (a & b & c' & Ha & Hb' & Hc & ->)%trigrams_shape.
    exists a, b, c'. auto.
Qed.

Lemma collect_shape text_files : corpus_shape (collect text_files).
Proof.
  unfold collect.
  assert (corpus_shape (Corpus [] [] [])) as Hinit by (by split_and!).
  revert Hinit. generalize (Corpus [] [] []).
  induction text_files as [|f fs IH]; intros c Hc; [done|].
  simpl. by apply IH, process_file_shape.
Qed.

(** ** Spaces *)

Lemma space_count_append (s1 s2 : string) :
  space_count (s1 +:+ s2) = space_count s1 + space_count s2.
Proof. induction s1 as [|c s1 IH]; simpl; [done|]. rewrite IH. lia. Qed.

Lemma token_space_count t : is_token t = true → space_count t = 0.
Proof.
  intros [_ Haz]%andb_true_iff. induction t as [|c t IH]; simpl; [done|].
  simpl in Haz. apply andb_true_iff in Haz as [Hc Ht]. rewrite IH by done.
  rewrite bool_decide_eq_false_2; [done|]. by apply is_az_not_space.
Qed.

Lemma two_words_space_count p : is_two_words p → space_count p = 1.
Proof.
  intros (a & b & Ha & Hb & ->).
  rewrite !space_count_append.
  by rewrite (token_space_count a), (token_space_count b).
Qed.

Lemma three_words_space_count p : is_three_words p → space_count p = 2.
Proof.
  intros (a & b & c & Ha & Hb & Hc & ->).
  rewrite !space_count_append.
  by rewrite (token_space_count a), (token_space_count b), (token_space_count c).
Qed.

Lemma space_count_has_space (s : string) : 0 < space_count s → has_space s = true.
Proof.
  unfold has_space. induction s as [|c s IH]; simpl; [lia|].
  case_bool_decide; simpl; [done|]. exact IH.
Qed.

(** ** Training: the guard, the thresholds and the shape *)

(** Past the guard, the two sets are assigned before the database is
    saved, whatever the save does. *)
Lemma train_worker_sets f fs w self db :
  medical_terms (train_worker (f :: fs) w self db).1.1
  = derive_terms (collect (f :: fs))
  ∧ medical_phrases (train_worker (f :: fs) w self db).1.1
    = derive_phrases (collect (f :: fs)).
Proof. by destruct w. Qed.

(** C1 (amended).  When the folder holds no [.txt], [.docx] or [.doc] file
    at all, the training run stops with the "no documents found" error and
    the vocabulary is exactly as before, in memory and in the store.  As
    soon as one file is found the run never stops that way, whether or not
    any file yields text: the two sets are replaced by what the thresholds
    give on whatever was read. *)
Theorem train_without_documents_leaves_state w self db :
  train_worker [] w self db = (self, db, NoDocumentsFound)
  ∧ ∀ f fs,
      (train_worker (f :: fs) w self db).2 ≠ NoDocumentsFound
      ∧ medical_terms (train_worker (f :: fs) w self db).1.1
        = derive_terms (collect (f :: fs))
      ∧ medical_phrases (train_worker (f :: fs) w self db).1.1
        = derive_phrases (collect (f :: fs)).
Proof. split; [done|]. intros f fs. split; [|apply train_worker_sets]. by destruct w. Qed.

(** C1 as stated fails: a folder with two documents, neither of which can
    be read, yields no text, yet training completes, the prior terms and
    phrases are replaced by empty sets and the store is overwritten. *)
Lemma unreadable_documents_erase_vocabulary :
  Forall (λ f, read_text f = None) unreadable_folder
  ∧ train_worker unreadable_folder WriteOk prior_vocabulary prior_store
    = ({| medical_terms := ∅; medical_phrases := ∅; trained := true |},
       DbSaved ∅ ∅, TrainingComplete)
  ∧ medical_terms prior_vocabulary ≠ ∅
  ∧ prior_store ≠ DbSaved ∅ ∅.
Proof.
  split_and!.
  - by repeat constructor.
  - by vm_compute.
  - unfold prior_vocabulary. simpl. set_solver.
  - unfold prior_store. by intros [=].
Qed.

(** C4 (amended).  On a document of ASCII characters, tokenization
    lowercases the text and extracts exactly the maximal runs of word
    characters (letters, digits, underscore) that consist of letters only:
    a character that is not a word character separates tokens and is
    discarded, while a run of letters touching a digit or an underscore is
    not extracted at all. *)
Theorem tokenize_letter_only_words text :
  Str.is_ascii text = true →
  tokenize text = letter_only_words text.
Proof. intros _. apply tokenize_spec. Qed.

Lemma tokenize_letter_only_words_witness :
  Str.is_ascii "Stage2 cancer, x_ray of the patient's chest" = true
  ∧ tokenize "Stage2 cancer, x_ray of the patient's chest"
    = ["cancer"; "of"; "the"; "patient"; "s"; "chest"]
  ∧ tokenize "Stage2 cancer, x_ray of the patient's chest"
    = letter_only_words "Stage2 cancer, x_ray of the patient's chest".
Proof.
  split; [by vm_compute|]. split; [by vm_compute|].
  apply (tokenize_letter_only_words
           "Stage2 cancer, x_ray of the patient's chest").
  by vm_compute.
Defined.

(** C4 as stated fails: the letters of "stage2" are next to a digit and
    are not extracted. *)
Lemma letters_next_to_digit_are_lost :
  letter_runs "Stage2 cancer" = ["stage"; "cancer"]
  ∧ tokenize "Stage2 cancer" = ["cancer"].
Proof. split; by vm_compute. Qed.

(** C5.  After a training run that found files, a token is in the terms
    iff it occurs at least 3 times in the corpus, is longer than 3
    characters and is not in the training stoplist; a bigram is in the
    phrases iff it occurs at least 2 times, and so is a trigram; the
    phrases hold nothing else. *)
Theorem training_thresholds f fs w self db :
  (∀ t, t ∈ medical_terms (train_worker (f :: fs) w self db).1.1
        ↔ 3 ≤ count t (all_words (collect (f :: fs)))
          ∧ 3 < String.length t
          ∧ t ∉ training_filler_words)
  ∧ (∀ p, p ∈ all_bigrams (collect (f :: fs)) →
          p ∈ medical_phrases (train_worker (f :: fs) w self db).1.1
          ↔ 2 ≤ count p (all_bigrams (collect (f :: fs))))
  ∧ (∀ p, p ∈ all_trigrams (collect (f :: fs)) →
          p ∈ medical_phrases (train_worker (f :: fs) w self db).1.1
          ↔ 2 ≤ count p (all_trigrams (collect (f :: fs))))
  ∧ (∀ p, p ∈ medical_phrases (train_worker (f :: fs) w self db).1.1 →
          p ∈ all_bigrams (collect (f :: fs))
          ∨ p ∈ all_trigrams (collect (f :: fs))).
Proof.
  destruct (train_worker_sets f fs w self db) as [-> ->].
  destruct (collect_shape (f :: fs)) as (_ & Hbi & Htri).
  rewrite Forall_forall in Hbi, Htri.
  split_and!.
  - intros t. apply elem_of_derive_terms.
  - intros p Hp. rewrite elem_of_derive_phrases. split; [|by left].
    intros [Hle|Hle]; [done|].
    assert (p ∈ all_trigrams (collect (f :: fs))) as Hp' by (apply count_pos; lia).
    pose proof (two_words_space_count p (Hbi p Hp)).
    pose proof (three_words_space_count p (Htri p Hp')). lia.
  - intros p Hp. rewrite elem_of_derive_phrases. split; [|by right].
    intros [Hle|Hle]; [|done].
    assert (p ∈ all_bigrams (collect (f :: fs))) as Hp' by (apply count_pos; lia).
    pose proof (two_words_space_count p (Hbi p Hp')).
    pose proof (three_words_space_count p (Htri p Hp)). lia.
  - intros p [Hle|Hle]%elem_of_derive_phrases; [left|right]; apply count_pos; lia.
Qed.

(** C10.  The vocabulary a training run produces has the shape: every
    term is one non-empty lowercase alphabetic token without a space,
    every phrase is two or three such tokens joined by single spaces and
    so contains a space, and no string is both a term and a phrase. *)
Theorem trained_vocabulary_shape f fs w self db :
  vocabulary_shape (train_worker (f :: fs) w self db).1.1.
Proof.
  destruct (train_worker_sets f fs w self db) as [Hterms Hphrases].
  destruct (collect_shape (f :: fs)) as (Hw & Hbi & Htri).
  rewrite Forall_forall in Hw, Hbi, Htri.
  assert (∀ t, t ∈ derive_terms (collect (f :: fs)) → is_token t = true) as Ht.
  { intros t (Hle & _)%elem_of_derive_terms. apply Hw, count_pos. lia. }
  assert (∀ p, p ∈ derive_phrases (collect (f :: fs)) →
               is_two_words p ∨ is_three_words p) as Hp.
  { intros p [Hle|Hle]%elem_of_derive_phrases; [left; apply Hbi|right; apply Htri];
      apply count_pos; lia. }
  split.
  - rewrite Hterms. intros t Hin. pose proof (Ht t Hin) as Htok.
    split; [done|]. apply andb_true_iff in Htok as [_ Haz].
    split; [by apply all_lower_fixed|by apply all_az_no_space].
  - rewrite Hphrases. intros p Hin. split; [by apply Hp|].
    apply space_count_has_space.
    destruct (Hp p Hin) as [H2|H3];
      [rewrite (two_words_space_count p H2)|rewrite (three_words_space_count p H3)]; lia.
  - rewrite Hterms, Hphrases. apply elem_of_disjoint. intros x Hx1 Hx2.
    pose proof (token_space_count x (Ht x Hx1)).
    destruct (Hp x Hx2) as [H2|H3];
      [pose proof (two_words_space_count x H2)|pose proof (three_words_space_count x H3)];
      lia.
Qed.

(** ** Cleaning *)

(** *** Words never contain a space *)

Lemma any_lstrip q p (s : string) :
  Str.any q s = false → Str.any q (Str.lstrip p s) = false.
Proof.
  induction s as [|c s IH]; [done|]. cbn [Str.lstrip].
  destruct (p c); [|done]. simpl. intros [_ Hs]%orb_false_iff. by apply IH.
Qed.

Lemma any_rstrip q p (s : string) :
  Str.any q s = false → Str.any q (Str.rstrip p s) = false.
Proof.
  induction s as [|c s IH]; [done|]. simpl.
  intros [Hc Hs]%orb_false_iff. destruct (_ && _); [done|].
  simpl. by rewrite Hc, IH.
Qed.

Lemma has_space_strip p (s : string) :
  has_space s = false → has_space (Str.strip p s) = false.
Proof. intros Hs. by apply any_rstrip, any_lstrip. Qed.

Lemma split_no_space (s : string) :
  Forall (λ w, has_space w = false) (Str.split s).
Proof.
  unfold Str.split. eapply Forall_impl; [apply runs_all|].
  intros w [_ Hall]. unfold has_space.
  induction w as [|c w IH]; [done|]. simpl in *.
  apply andb_true_iff in Hall as [Hc Hw]. rewrite IH by done.
  rewrite orb_false_r. apply bool_decide_eq_false. intros ->. done.
Qed.

Lemma stripped_no_space (words : list string) i :
  Forall (λ w, has_space w = false) words → has_space (stripped words i) = false.
Proof.
  intros Hwords. apply has_space_strip. unfold item.
  destruct (words !! i) as [w|] eqn:Hw; [|done]. simpl.
  rewrite Forall_forall in Hwords. by eapply Hwords, list_elem_of_lookup_2.
Qed.

Lemma multi_word_fillers_have_space w :
  w ∈ multi_word_fillers → has_space w = true.
Proof.
  unfold multi_word_fillers. rewrite elem_of_list_to_set, !elem_of_cons, elem_of_nil.
  intros [->|[->|[->|[->|[]]]]]; done.
Qed.

Lemma single_word_filler_test w :
  has_space w = false →
  bool_decide (w ∈ cleaning_filler_words) = bool_decide (w ∈ single_word_fillers).
Proof.
  intros Hw. apply bool_decide_ext. unfold single_word_fillers.
  rewrite elem_of_difference. split; [|by intros [? _]].
  intros Hin. split; [done|].
  intros Hmulti%multi_word_fillers_have_space. congruence.
Qed.

(** *** The cleaner does not need the multi-word fillers *)

Section DeadFillers.

Variable self : app.

Lemma loop_step_single_word_fillers words s :
  Forall (λ w, has_space w = false) words →
  loop_step cleaning_filler_words self words s
  = loop_step single_word_fillers self words s.
Proof.
  intros Hwords. destruct s as [i kept]. unfold loop_step, keeps_single.
  by rewrite (single_word_filler_test _ (stripped_no_space words i Hwords)).
Qed.

Lemma while_loop_single_word_fillers fuel words s :
  Forall (λ w, has_space w = false) words →
  while_loop cleaning_filler_words self fuel words s
  = while_loop single_word_fillers self fuel words s.
Proof.
  intros Hwords. revert s. induction fuel as [|fuel IH]; intros s; [done|].
  cbn [while_loop]. by rewrite loop_step_single_word_fillers, IH.
Qed.

Lemma clean_sentence_single_word_fillers sentence :
  clean_sentence cleaning_filler_words self sentence
  = clean_sentence single_word_fillers self sentence.
Proof.
  unfold clean_sentence, kept_words.
  by rewrite while_loop_single_word_fillers by apply split_no_space.
Qed.

Lemma cleaned_single_word_fillers text :
  cleaned cleaning_filler_words self text = cleaned single_word_fillers self text.
Proof.
  unfold cleaned. generalize (sentences text). intros l.
  induction l as [|s l IH]; [done|]. simpl.
  rewrite clean_sentence_single_word_fillers.
  change (list_omap string string) with (@omap list _ string string) in *.
  by rewrite IH.
Qed.

End DeadFillers.

(** *** The claims about the cleaner *)

(** C2 (amended).  Whenever the cursor of the left-to-right scan stands on
    a word that, with the next two, forms a trigram present in the
    phrases, the three words (lowercased, punctuation stripped from their
    ends) are appended next to each other to the kept words of the
    sentence and the cursor moves three words on, whether or not any of
    them is a filler.  A trigram whose first word was already consumed by
    a match that started earlier is not looked at. *)
Theorem trigram_kept_when_cursor_reaches_it self words n i kept :
  while_loop cleaning_filler_words self n words (0, []) = (i, kept) →
  trigram_matches self words i = true →
  loop_step cleaning_filler_words self words (i, kept)
  = (i + 3, kept ++ [stripped words i; stripped words (i + 1);
                     stripped words (i + 2)])
  ∧ ∃ rest,
      kept_words cleaning_filler_words self words
      = kept ++ [stripped words i; stripped words (i + 1);
                 stripped words (i + 2)] ++ rest.
Proof.
  intros Hreach Htri. split.
  - unfold loop_step. by rewrite Htri.
  - by eapply trigram_step.
Qed.

Lemma trigram_kept_when_cursor_reaches_it_witness :
  while_loop cleaning_filler_words infarction_vocabulary 4 infarction_words (0, [])
  = (4, ["the"; "patient"; "has"])
  ∧ trigram_matches infarction_vocabulary infarction_words 4 = true
  ∧ ∃ rest,
      kept_words cleaning_filler_words infarction_vocabulary infarction_words
      = ["the"; "patient"; "has"]
          ++ [stripped infarction_words 4; stripped infarction_words (4 + 1);
              stripped infarction_words (4 + 2)] ++ rest.
Proof.
  split; [by vm_compute|]. split; [by vm_compute|].
  apply (trigram_kept_when_cursor_reaches_it
           infarction_vocabulary infarction_words 4 4 ["the"; "patient"; "has"]);
    by vm_compute.
Defined.

(** C2 as stated fails: after training on a note that repeats "the patient
    is well", the sentence "the patient is well" contains the known
    trigram "patient is well", but the match of "the patient is" one word
    earlier moves the cursor past it and "well" is dropped as a filler. *)
Lemma earlier_match_fragments_trigram :
  Str.split (Str.lower "the patient is well") = ["the"; "patient"; "is"; "well"]
  ∧ "patient is well" ∈ medical_phrases trained_on_note
  ∧ trigram_matches trained_on_note ["the"; "patient"; "is"; "well"] 1 = true
  ∧ kept_words cleaning_filler_words trained_on_note
      ["the"; "patient"; "is"; "well"] = ["the"; "patient"; "is"]
  ∧ clean_transcription trained_on_note "the patient is well" = "The patient is.".
Proof.
  split_and!; by vm_compute.
Qed.

(** C3 (amended).  As long as no database was loaded and no training run
    was saved (the flag [trained] is unset), cleaning returns the text
    unchanged, whatever the two sets hold.  Emptiness of the sets is not
    what is tested. *)
Theorem untrained_clean_is_identity self text :
  trained self = false → clean_transcription self text = text.
Proof.
  intros Hun. unfold clean_transcription, clean_transcription_with.
  by rewrite Hun.
Qed.

Lemma untrained_clean_is_identity_witness :
  trained (load_medical_database init DbMissing) = false
  ∧ clean_transcription (load_medical_database init DbMissing) "Um, hello." = "Um, hello.".
Proof.
  split; [reflexivity|].
  apply (untrained_clean_is_identity (load_medical_database init DbMissing)).
  reflexivity.
Defined.

(** C3 as stated fails: training on a document in which nothing repeats
    leaves both sets empty but sets the flag, and fillers are then
    removed. *)
Lemma empty_trained_vocabulary_still_filters :
  medical_terms trained_on_greeting = ∅
  ∧ medical_phrases trained_on_greeting = ∅
  ∧ clean_transcription trained_on_greeting "um hello" = "Hello."
  ∧ clean_transcription trained_on_greeting "um hello" ≠ "um hello".
Proof. split_and!; by vm_compute. Qed.

(** C6 as stated fails: both words of "Fever, Cough" are kept, but neither
    is reproduced as it was written: the comma is gone and the capital of
    the second word is lost. *)
Lemma kept_words_not_verbatim :
  Str.split "Fever, Cough" = ["Fever,"; "Cough"]
  ∧ kept_words cleaning_filler_words infarction_vocabulary
      (Str.split (Str.lower "Fever, Cough")) = ["fever"; "cough"]
  ∧ clean_transcription infarction_vocabulary "Fever, Cough" = "Fever cough.".
Proof. split_and!; by vm_compute. Qed.

(** C7.  At a position where neither the trigram nor the bigram test
    succeeds, the word is kept iff it is in the terms or it is not in the
    cleaning stoplist; the cursor moves one word on either way. *)
Theorem single_word_fallback_rule self words i kept :
  trigram_matches self words i = false →
  bigram_matches self words i = false →
  ((stripped words i ∈ medical_terms self)
   ∨ (stripped words i ∉ cleaning_filler_words) →
   loop_step cleaning_filler_words self words (i, kept)
   = (i + 1, kept ++ [stripped words i]))
  ∧ ((stripped words i ∉ medical_terms self)
     ∧ (stripped words i ∈ cleaning_filler_words) →
     loop_step cleaning_filler_words self words (i, kept) = (i + 1, kept)).
Proof.
  intros Htri Hbi. unfold loop_step, keeps_single. rewrite Htri, Hbi. split.
  - intros [Hin|Hout].
    + by rewrite bool_decide_eq_true_2.
    + rewrite (bool_decide_eq_false_2 (_ ∈ cleaning_filler_words)) by done.
      by rewrite orb_true_r.
  - intros [Hout Hin].
    rewrite bool_decide_eq_false_2, bool_decide_eq_true_2 by done. done.
Qed.

Lemma single_word_fallback_rule_witness :
  trigram_matches infarction_vocabulary infarction_words 0 = false
  ∧ bigram_matches infarction_vocabulary infarction_words 0 = false
  ∧ stripped infarction_words 0 = "um"
  ∧ loop_step cleaning_filler_words infarction_vocabulary infarction_words (0, [])
    = (0 + 1, []).
Proof.
  split; [by vm_compute|]. split; [by vm_compute|]. split; [by vm_compute|].
  apply (single_word_fallback_rule infarction_vocabulary infarction_words 0 []);
    [by vm_compute|by vm_compute|].
  split; by vm_compute.
Defined.

(** C8.  For a text that is not empty, cleaning never returns the empty
    string; when no sentence survives, it returns the text it was
    given. *)
Theorem clean_never_empty self text :
  text ≠ "" →
  clean_transcription self text ≠ ""
  ∧ (cleaned cleaning_filler_words self text = [] →
     clean_transcription self text = text).
Proof.
  intros Htext. unfold clean_transcription, clean_transcription_with.
  destruct (trained self); simpl; [|done].
  destruct (cleaned cleaning_filler_words self text) as [|s l]; [done|].
  split; [apply append_not_empty|done].
Qed.

Lemma clean_never_empty_witness :
  "um. uh, like" ≠ ""
  ∧ cleaned cleaning_filler_words infarction_vocabulary "um. uh, like" = []
  ∧ clean_transcription infarction_vocabulary "um. uh, like" ≠ ""
  ∧ (cleaned cleaning_filler_words infarction_vocabulary "um. uh, like" = [] →
     clean_transcription infarction_vocabulary "um. uh, like" = "um. uh, like").
Proof.
  split; [done|]. split; [by vm_compute|].
  apply (clean_never_empty infarction_vocabulary "um. uh, like"). done.
Defined.

(** C9.  The word tested by the single-word branch never contains a
    space, so it is none of "you know", "i mean", "sort of", "kind of";
    the cleaner gives the same text as the one whose stoplist leaves these
    four entries out. *)
Theorem multi_word_fillers_never_match self text :
  (∀ sentence i,
     stripped (Str.split (Str.lower sentence)) i ∉ multi_word_fillers)
  ∧ clean_transcription self text
    = clean_transcription_with single_word_fillers self text.
Proof.
  split.
  - intros sentence i Hin%multi_word_fillers_have_space.
    rewrite stripped_no_space in Hin by apply split_no_space. done.
  - unfold clean_transcription, clean_transcription_with.
    by rewrite cleaned_single_word_fillers.
Qed.

(** * Further properties of the code *)

(** ** The database file *)

(** X3.  Training is not atomic on a failed save: the report is "Failed to
    save", the flag keeps its value, but the terms and phrases in memory
    are already the new ones; when the file could not even be opened it
    still holds what it held. *)
Theorem failed_save_keeps_new_sets f fs w self db :
  w ≠ WriteOk →
  (train_worker (f :: fs) w self db).2 = SaveFailed
  ∧ trained (train_worker (f :: fs) w self db).1.1 = trained self
  ∧ medical_terms (train_worker (f :: fs) w self db).1.1
    = derive_terms (collect (f :: fs))
  ∧ medical_phrases (train_worker (f :: fs) w self db).1.1
    = derive_phrases (collect (f :: fs))
  ∧ (w = OpenFails → (train_worker (f :: fs) w self db).1.2 = db).
Proof. by destruct w. Qed.

Lemma failed_save_keeps_new_sets_witness :
  OpenFails ≠ WriteOk
  ∧ (train_worker [TxtFile (Some "hello world")] OpenFails
       prior_vocabulary prior_store).2 = SaveFailed
  ∧ medical_terms (train_worker [TxtFile (Some "hello world")] OpenFails
                     prior_vocabulary prior_store).1.1
    = derive_terms (collect [TxtFile (Some "hello world")])
  ∧ (train_worker [TxtFile (Some "hello world")] OpenFails
       prior_vocabulary prior_store).1.2 = prior_store.
Proof.
  split; [done|].
  destruct (failed_save_keeps_new_sets (TxtFile (Some "hello world")) []
              OpenFails prior_vocabulary prior_store) as (H1 & _ & H3 & _ & H5);
    [done|].
  split; [exact H1|]. split; [exact H3|]. by apply H5.
Defined.

(** ** The corpus *)

Lemma collect_from c text_files :
  foldl process_file c text_files
  = {| all_words :=
         all_words c ++ concat (tokenize <$> omap read_text text_files);
       all_bigrams :=
         all_bigrams c
         ++ concat ((λ t, bigrams (tokenize t)) <$> omap read_text text_files);
       all_trigrams :=
         all_trigrams c
         ++ concat ((λ t, trigrams (tokenize t)) <$> omap read_text text_files) |}.
Proof.
  revert c. induction text_files as [|f fs IH]; intros c.
  - simpl. rewrite !app_nil_r. by destruct c.
  - cbn [foldl]. rewrite IH. unfold process_file.
    change (omap read_text (f :: fs))
      with (match read_text f with
            | Some t => t :: omap read_text fs
            | None => omap read_text fs
            end).
    destruct (read_text f) as [text|]; [|done].
    simpl. by rewrite <- !app_assoc.
Qed.

Lemma collect_by_document text_files :
  collect text_files
  = {| all_words := concat (tokenize <$> omap read_text text_files);
       all_bigrams :=
         concat ((λ t, bigrams (tokenize t)) <$> omap read_text text_files);
       all_trigrams :=
         concat ((λ t, trigrams (tokenize t)) <$> omap read_text text_files) |}.
Proof. unfold collect. by rewrite collect_from. Qed.

(** X4.  The three lists of a training run are built document by
    document: the words are the tokens of the readable documents, in
    order, and the bigrams and trigrams are those of each document taken
    on its own, so that no n-gram spans two documents and a document that
    cannot be read contributes nothing. *)
Theorem corpus_by_document text_files :
  all_words (collect text_files)
  = concat (tokenize <$> omap read_text text_files)
  ∧ all_bigrams (collect text_files)
    = concat ((λ t, bigrams (tokenize t)) <$> omap read_text text_files)
  ∧ all_trigrams (collect text_files)
    = concat ((λ t, trigrams (tokenize t)) <$> omap read_text text_files).
Proof. by rewrite collect_by_document. Qed.

Lemma item_cons x (l : list string) i : item (x :: l) (S i) = item l i.
Proof. done. Qed.

Lemma bigrams_cons a b (l : list string) :
  bigrams (a :: b :: l) = (a +:+ " " +:+ b) :: bigrams (b :: l).
Proof.
  unfold bigrams. cbn [length]. rewrite !Nat.sub_succ, !Nat.sub_0_r.
  cbn [seq fmap list_fmap]. f_equal.
  rewrite <- seq_shift, <- list_fmap_compose.
  by apply list_fmap_ext.
Qed.

Lemma trigrams_cons a b c (l : list string) :
  trigrams (a :: b :: c :: l)
  = (a +:+ " " +:+ b +:+ " " +:+ c) :: trigrams (b :: c :: l).
Proof.
  unfold trigrams. cbn [length]. rewrite !Nat.sub_succ, !Nat.sub_0_r.
  cbn [seq fmap list_fmap]. f_equal.
  rewrite <- seq_shift, <- list_fmap_compose.
  by apply list_fmap_ext.
Qed.

(** X5.  The n-grams are the sliding windows of the token list: the first
    window followed by the windows of the list without its first token;
    a list of [L] tokens has [L - 1] bigrams and [L - 2] trigrams, none
    when it is shorter than the window. *)
Theorem ngrams_sliding_window a b c (l words : list string) :
  bigrams (a :: b :: l) = (a +:+ " " +:+ b) :: bigrams (b :: l)
  ∧ trigrams (a :: b :: c :: l)
    = (a +:+ " " +:+ b +:+ " " +:+ c) :: trigrams (b :: c :: l)
  ∧ bigrams [a] = [] ∧ trigrams [a; b] = []
  ∧ length (bigrams words) = length words - 1
  ∧ length (trigrams words) = length words - 2.
Proof.
  split_and!; [apply bigrams_cons|apply trigrams_cons|done|done|..];
    unfold bigrams, trigrams; by rewrite length_fmap, length_seq.
Qed.

(** *** Order and growth of the corpus *)

Lemma count_concat_Permutation w (ls ls' : list (list string)) :
  ls ≡ₚ ls' → count w (concat ls) = count w (concat ls').
Proof.
  induction 1 as [|l ls ls' _ IH|l1 l2 ls|ls1 ls2 ls3 _ IH1 _ IH2]; simpl.
  - done.
  - by rewrite !count_app, IH.
  - rewrite !count_app. lia.
  - by rewrite IH1.
Qed.

Lemma corpus_counts_Permutation w fs fs' :
  fs ≡ₚ fs' →
  count w (all_words (collect fs)) = count w (all_words (collect fs'))
  ∧ count w (all_bigrams (collect fs)) = count w (all_bigrams (collect fs'))
  ∧ count w (all_trigrams (collect fs)) = count w (all_trigrams (collect fs')).
Proof.
  intros Hperm. rewrite !collect_by_document. cbn [all_words all_bigrams all_trigrams].
  split_and!; apply count_concat_Permutation; by rewrite Hperm.
Qed.

(** X6.  The vocabulary does not depend on the order in which the files
    are found: two runs over the same files in a different order derive
    the same terms and the same phrases. *)
Theorem vocabulary_independent_of_file_order fs fs' :
  fs ≡ₚ fs' →
  derive_terms (collect fs) = derive_terms (collect fs')
  ∧ derive_phrases (collect fs) = derive_phrases (collect fs').
Proof.
  intros Hperm. split; apply set_eq; intros x.
  - rewrite !elem_of_derive_terms.
    by destruct (corpus_counts_Permutation x fs fs' Hperm) as (-> & _ & _).
  - rewrite !elem_of_derive_phrases.
    by destruct (corpus_counts_Permutation x fs fs' Hperm) as (_ & -> & ->).
Qed.

Lemma vocabulary_independent_of_file_order_witness :
  [TxtFile (Some "acute pain acute pain"); WordFile None]
    ≡ₚ [WordFile None; TxtFile (Some "acute pain acute pain")]
  ∧ derive_phrases
      (collect [TxtFile (Some "acute pain acute pain"); WordFile None])
    = derive_phrases
        (collect [WordFile None; TxtFile (Some "acute pain acute pain")]).
Proof.
  split; [apply perm_swap|].
  apply (vocabulary_independent_of_file_order
           [TxtFile (Some "acute pain acute pain"); WordFile None]
           [WordFile None; TxtFile (Some "acute pain acute pain")]).
  apply perm_swap.
Defined.

Lemma corpus_counts_app w fs more :
  count w (all_words (collect fs)) ≤ count w (all_words (collect (fs ++ more)))
  ∧ count w (all_bigrams (collect fs))
    ≤ count w (all_bigrams (collect (fs ++ more)))
  ∧ count w (all_trigrams (collect fs))
    ≤ count w (all_trigrams (collect (fs ++ more))).
Proof.
  rewrite !collect_by_document. cbn [all_words all_bigrams all_trigrams].
  rewrite omap_app, !fmap_app, !concat_app, !count_app. lia.
Qed.

(** X7.  More documents never shrink the vocabulary: every term and every
    phrase derived from a list of files is still derived when further
    files are added. *)
Theorem vocabulary_grows_with_corpus fs more :
  derive_terms (collect fs) ⊆ derive_terms (collect (fs ++ more))
  ∧ derive_phrases (collect fs) ⊆ derive_phrases (collect (fs ++ more)).
Proof.
  split; intros x.
  - rewrite !elem_of_derive_terms. intros (Hle & Hlen & Hfill).
    destruct (corpus_counts_app x fs more) as (Hw & _ & _).
    split_and!; [lia|done..].
  - rewrite !elem_of_derive_phrases.
    destruct (corpus_counts_app x fs more) as (_ & Hb & Ht).
    intros [Hle|Hle]; [left|right]; lia.
Qed.

(** *** Separators *)

Lemma lower_append (s1 s2 : string) :
  Str.lower (s1 +:+ s2) = Str.lower s1 +:+ Str.lower s2.
Proof.
  induction s1 as [|c s1 IH]; [done|].
  rewrite append_String. simpl. by rewrite IH.
Qed.

Lemma not_word_lower c : Char.is_word c = false → Char.lower c = c.
Proof.
  unfold Char.is_word, Char.lower. destruct (Char.is_AZ c); [|done].
  by rewrite orb_true_r.
Qed.

Lemma runs_go_separator p (s1 : string) c (s2 : string) :
  p c = false →
  Str.runs_go p (s1 +:+ String c s2)
  = ((Str.runs_go p s1).1, (Str.runs_go p s1).2 ++ Str.runs p s2).
Proof.
  intros Hc. induction s1 as [|a s1 IH].
  - by rewrite append_empty_l, runs_go_cons, Hc.
  - rewrite append_String, !runs_go_cons. destruct (p a).
    + by rewrite IH.
    + unfold Str.runs. rewrite IH. cbn [fst snd].
      destruct (Str.runs_go p s1) as [w ws]. cbn [fst snd].
      by destruct (Str.is_empty w).
Qed.

Lemma runs_separator p (s1 : string) c (s2 : string) :
  p c = false →
  Str.runs p (s1 +:+ String c s2) = Str.runs p s1 ++ Str.runs p s2.
Proof.
  intros Hc. unfold Str.runs at 1 2. rewrite runs_go_separator by done.
  destruct (Str.runs_go p s1) as [w ws]. cbn [fst snd].
  by destruct (Str.is_empty w).
Qed.

Lemma tokenize_separator (s1 : string) c (s2 : string) :
  Char.is_word c = false →
  tokenize (s1 +:+ String c s2) = tokenize s1 ++ tokenize s2.
Proof.
  intros Hc. rewrite !tokenize_spec. unfold letter_only_words.
  rewrite lower_append. cbn [Str.lower]. rewrite (not_word_lower c Hc).
  by rewrite runs_separator, filter_app.
Qed.

Lemma tokenize_empty : tokenize "" = [].
Proof. done. Qed.

(** X8.  In ASCII text, a character that is not a word character cuts
    the text in two for the tokenizer: the tokens of the whole are the
    tokens of the part before it followed by the tokens of the part after
    it.  So the tokens of a Word document with ASCII paragraphs, which are
    joined by line feeds, are the tokens of its paragraphs one after the
    other. *)
Theorem tokens_of_paragraphs paragraphs :
  Forall (λ p, Str.is_ascii p = true) paragraphs →
  (∀ s1 c s2,
     Str.is_ascii s1 = true → Char.is_ascii c = true → Str.is_ascii s2 = true →
     Char.is_word c = false →
     tokenize (s1 +:+ String c s2) = tokenize s1 ++ tokenize s2)
  ∧ (tokenize <$> read_text (WordFile (Some paragraphs)))
    = Some (concat (tokenize <$> paragraphs)).
Proof.
  intros _. split; [intros s1 c s2 _ _ _; apply tokenize_separator|].
  simpl. f_equal.
  induction paragraphs as [|x [|y l] IH].
  - done.
  - simpl. by rewrite app_nil_r.
  - change (Str.join newline (x :: y :: l))
      with (x +:+ newline +:+ Str.join newline (y :: l)).
    unfold newline at 1. rewrite append_String, append_empty_l.
    rewrite tokenize_separator by done. by rewrite IH.
Qed.

Lemma tokens_of_paragraphs_witness :
  Forall (λ p, Str.is_ascii p = true) ["Acute pain"; "in the chest"]
  ∧ (tokenize <$> read_text (WordFile (Some ["Acute pain"; "in the chest"])))
    = Some (concat (tokenize <$> ["Acute pain"; "in the chest"])).
Proof.
  split; [by repeat constructor|].
  apply (tokens_of_paragraphs ["Acute pain"; "in the chest"]).
  by repeat constructor.
Defined.

(** ** More on the cleaner *)

Section Retention.

Variable filler_words : gset string.
Variable self : app.

Abbreviation keeps := (λ w, keeps_single filler_words self w = true).

Lemma loop_step_in_range words i kept :
  i < length words →
  (loop_step filler_words self words (i, kept)).1 ≤ length words.
Proof.
  intros Hi. unfold loop_step.
  destruct (trigram_matches self words i) eqn:Htri.
  { apply andb_true_iff in Htri as [Hlt%Nat.ltb_lt _]. simpl. lia. }
  destruct (bigram_matches self words i) eqn:Hbi.
  { apply andb_true_iff in Hbi as [Hlt%Nat.ltb_lt _]. simpl. lia. }
  simpl. lia.
Qed.

(** Each round appends at least the words it passes that the single-word
    test would keep. *)
Lemma loop_step_retains words i kept :
  i < length words →
  filter keeps (Str.strip Char.is_punct <$> take i words) `sublist_of` kept →
  filter keeps
    (Str.strip Char.is_punct
       <$> take (loop_step filler_words self words (i, kept)).1 words)
    `sublist_of` (loop_step filler_words self words (i, kept)).2.
Proof.
  intros Hi Hsub. unfold loop_step.
  destruct (trigram_matches self words i) eqn:Htri.
  { apply andb_true_iff in Htri as [Hlt%Nat.ltb_lt _]. cbn [fst snd].
    rewrite take_item3, fmap_app, filter_app by lia.
    apply sublist_app; [done|]. apply sublist_filter. }
  destruct (bigram_matches self words i) eqn:Hbi.
  { apply andb_true_iff in Hbi as [Hlt%Nat.ltb_lt _]. cbn [fst snd].
    rewrite take_item2, fmap_app, filter_app by lia.
    apply sublist_app; [done|]. apply sublist_filter. }
  cbn [fst snd]. rewrite Nat.add_1_r, take_item, fmap_app, filter_app by done.
  cbn [fmap list_fmap]. unfold stripped.
  destruct (keeps_single filler_words self _) eqn:Hk.
  - rewrite filter_cons_True by done. by apply sublist_app.
  - rewrite filter_cons_False by (by rewrite Hk). by rewrite app_nil_r.
Qed.

Lemma while_loop_retains fuel words s :
  s.1 ≤ length words →
  filter keeps (Str.strip Char.is_punct <$> take s.1 words) `sublist_of` s.2 →
  (while_loop filler_words self fuel words s).1 ≤ length words
  ∧ filter keeps
      (Str.strip Char.is_punct
         <$> take (while_loop filler_words self fuel words s).1 words)
      `sublist_of` (while_loop filler_words self fuel words s).2.
Proof.
  revert s. induction fuel as [|fuel IH]; intros [i kept];
    cbn [while_loop fst snd]; intros Hi Hsub; [done|].
  destruct (Nat.ltb_spec i (length words)); [|done].
  apply IH; [by apply loop_step_in_range|by apply loop_step_retains].
Qed.

Lemma kept_words_retains words :
  filter keeps (Str.strip Char.is_punct <$> words)
    `sublist_of` kept_words filler_words self words.
Proof.
  unfold kept_words.
  destruct (while_loop_retains (length words) words (0, [])) as [Hle Hsub];
    [simpl; lia|done|].
  pose proof (while_loop_exits filler_words self (length words) words (0, []))
    as Hexit.
  rewrite take_ge in Hsub by (apply Hexit; simpl; lia). done.
Qed.

(** When no bigram or trigram test succeeds anywhere, the loop is the
    single-word filter. *)
Lemma while_loop_plain fuel words i kept :
  (∀ j, trigram_matches self words j = false
        ∧ bigram_matches self words j = false) →
  i ≤ length words → length words ≤ fuel + i →
  (while_loop filler_words self fuel words (i, kept)).2
  = kept ++ filter keeps (Str.strip Char.is_punct <$> drop i words).
Proof.
  intros Hno. revert i kept.
  induction fuel as [|fuel IH]; intros i kept Hi Hfuel; cbn [while_loop fst snd].
  - rewrite drop_ge by lia. by rewrite app_nil_r.
  - destruct (Nat.ltb_spec i (length words)).
    + unfold loop_step. destruct (Hno i) as [-> ->].
      destruct (lookup_lt_is_Some_2 words i ltac:(done)) as [w Hw].
      rewrite (drop_S _ _ _ Hw). cbn [fmap list_fmap].
      unfold stripped, item. rewrite Hw.
      change (default "" (Some w)) with w. rewrite Nat.add_1_r.
      destruct (keeps_single filler_words self _) eqn:Hk.
      * rewrite IH by lia. rewrite filter_cons_True by done.
        by rewrite <- app_assoc.
      * rewrite IH by lia. by rewrite filter_cons_False by (by rewrite Hk).
    + rewrite drop_ge by lia. by rewrite app_nil_r.
Qed.

End Retention.

Lemma keeps_single_spec filler_words self w :
  keeps_single filler_words self w = true
  ↔ w ∈ medical_terms self ∨ w ∉ filler_words.
Proof.
  unfold keeps_single. rewrite orb_true_iff, negb_true_iff.
  by rewrite bool_decide_eq_true, bool_decide_eq_false.
Qed.

Lemma bigram_at_has_space words i : has_space (bigram_at words i) = true.
Proof.
  unfold bigram_at, has_space. rewrite !any_append. simpl.
  by rewrite orb_true_r.
Qed.

Lemma derive_terms_no_space fs t :
  t ∈ derive_terms (collect fs) → has_space t = false.
Proof.
  intros (Hle & _)%elem_of_derive_terms.
  destruct (collect_shape fs) as (Hw & _). rewrite Forall_forall in Hw.
  assert (is_token t = true) as [_ Haz]%andb_true_iff
    by (apply Hw, count_pos; lia).
  by apply all_az_no_space.
Qed.

(** X9.  No word that the single-word test would keep is ever dropped,
    wherever it stands in the sentence and whatever matches around it:
    the words of the sentence (stripped) that are terms or are not
    fillers all appear, in order, among the kept words. *)
Theorem terms_and_non_fillers_are_retained self (words : list string) :
  filter (λ w, w ∈ medical_terms self ∨ w ∉ cleaning_filler_words)
         (Str.strip Char.is_punct <$> words)
    `sublist_of` kept_words cleaning_filler_words self words.
Proof.
  rewrite (list_filter_iff _
             (λ w, keeps_single cleaning_filler_words self w = true)).
  - apply kept_words_retains.
  - intros w. by rewrite keeps_single_spec.
Qed.

(** X10.  With no phrases and no term containing a space, the cleaner of
    a sentence is a plain word filter: the kept words are exactly the
    stripped words that are terms or are not fillers. *)
Theorem cleaner_without_phrases_is_a_filter self (words : list string) :
  medical_phrases self = ∅ →
  (∀ t, t ∈ medical_terms self → has_space t = false) →
  kept_words cleaning_filler_words self words
  = filter (λ w, w ∈ medical_terms self ∨ w ∉ cleaning_filler_words)
           (Str.strip Char.is_punct <$> words).
Proof.
  intros Hphr Hterms.
  assert (∀ j, trigram_matches self words j = false
               ∧ bigram_matches self words j = false) as Hno.
  { intros j. unfold trigram_matches, bigram_matches. rewrite Hphr.
    rewrite !(bool_decide_eq_false_2 (_ ∈ ∅)) by apply not_elem_of_empty.
    rewrite bool_decide_eq_false_2; [by rewrite !andb_false_r|].
    intros Hin%Hterms. by rewrite bigram_at_has_space in Hin. }
  unfold kept_words.
  rewrite (while_loop_plain _ _ _ _ 0 [] Hno) by (simpl; lia).
  simpl. apply list_filter_iff. intros w. by rewrite keeps_single_spec.
Qed.

Lemma cleaner_without_phrases_is_a_filter_witness :
  kept_words cleaning_filler_words trained_on_greeting ["um,"; "hello"; "well"]
  = filter (λ w, w ∈ medical_terms trained_on_greeting
                 ∨ w ∉ cleaning_filler_words)
           (Str.strip Char.is_punct <$> ["um,"; "hello"; "well"]).
Proof.
  apply (cleaner_without_phrases_is_a_filter trained_on_greeting
           ["um,"; "hello"; "well"]).
  - by vm_compute.
  - intros t Hin. exfalso. revert Hin.
    replace (medical_terms trained_on_greeting) with (∅ : gset string)
      by (by vm_compute).
    apply not_elem_of_empty.
Defined.

(** X11.  For a vocabulary that comes out of a training run, the test of
    the two-word string against the terms never succeeds (a term has no
    space, the two-word string has one): a bigram is matched iff it is in
    the phrases. *)
Theorem bigram_never_matches_a_term f fs w self db (words : list string) i :
  (bigram_at words i ∉ medical_terms (train_worker (f :: fs) w self db).1.1)
  ∧ bigram_matches (train_worker (f :: fs) w self db).1.1 words i
    = (i <? length words - 1)
      && bool_decide (bigram_at words i
                      ∈ medical_phrases (train_worker (f :: fs) w self db).1.1).
Proof.
  assert (bigram_at words i
          ∉ medical_terms (train_worker (f :: fs) w self db).1.1) as Hnot.
  { destruct (train_worker_sets f fs w self db) as [-> _].
    intros Hin%derive_terms_no_space. by rewrite bigram_at_has_space in Hin. }
  split; [done|]. unfold bigram_matches.
  by rewrite (bool_decide_eq_false_2 _ Hnot).
Qed.

(** *** Letter case *)

Lemma char_lower_idemp c : Char.lower (Char.lower c) = Char.lower c.
Proof. by destruct c as [[] [] [] [] [] [] [] []]. Qed.

Lemma is_space_lower c : Char.is_space (Char.lower c) = Char.is_space c.
Proof. by destruct c as [[] [] [] [] [] [] [] []]. Qed.

Lemma is_dot_lower c :
  bool_decide (Char.lower c = "."%char) = bool_decide (c = "."%char).
Proof. by destruct c as [[] [] [] [] [] [] [] []]. Qed.

Lemma is_dot_upper c :
  bool_decide (Char.upper c = "."%char) = bool_decide (c = "."%char).
Proof. by destruct c as [[] [] [] [] [] [] [] []]. Qed.

Lemma lower_idemp (s : string) : Str.lower (Str.lower s) = Str.lower s.
Proof.
  induction s as [|c s IH]; simpl; [done|]. by rewrite char_lower_idemp, IH.
Qed.

Lemma is_empty_lower (s : string) : Str.is_empty (Str.lower s) = Str.is_empty s.
Proof. by destruct s. Qed.

Lemma split_on_dot_lower (s : string) :
  Str.split_on "." (Str.lower s) = Str.lower <$> Str.split_on "." s.
Proof.
  induction s as [|c s IH]; [done|]. cbn [Str.lower Str.split_on].
  rewrite is_dot_lower, IH. destruct (bool_decide (c = "."%char)); [done|].
  by destruct (Str.split_on "." s).
Qed.

Lemma lstrip_space_lower (s : string) :
  Str.lstrip Char.is_space (Str.lower s) = Str.lower (Str.lstrip Char.is_space s).
Proof.
  induction s as [|c s IH]; [done|]. cbn [Str.lower Str.lstrip].
  rewrite is_space_lower. by destruct (Char.is_space c).
Qed.

Lemma rstrip_space_lower (s : string) :
  Str.rstrip Char.is_space (Str.lower s) = Str.lower (Str.rstrip Char.is_space s).
Proof.
  induction s as [|c s IH]; [done|]. cbn [Str.lower Str.rstrip].
  rewrite is_space_lower, IH, is_empty_lower.
  by destruct (Str.is_empty _ && Char.is_space c).
Qed.

Lemma sentences_lower text :
  sentences (Str.lower text) = Str.lower <$> sentences text.
Proof.
  unfold sentences. rewrite split_on_dot_lower.
  induction (Str.split_on "." text) as [|f fs IH]; [done|].
  cbn [fmap list_fmap]. unfold Str.strip at 1 3.
  rewrite lstrip_space_lower, rstrip_space_lower.
  fold (Str.strip Char.is_space f). rewrite !filter_cons, is_empty_lower.
  destruct (decide (Str.is_empty (Str.strip Char.is_space f) = false));
    cbn [fmap list_fmap]; by rewrite <- IH.
Qed.

Lemma clean_sentence_lower filler_words self sentence :
  clean_sentence filler_words self (Str.lower sentence)
  = clean_sentence filler_words self sentence.
Proof. unfold clean_sentence. by rewrite lower_idemp. Qed.

Lemma cleaned_lower filler_words self text :
  cleaned filler_words self (Str.lower text) = cleaned filler_words self text.
Proof.
  unfold cleaned. rewrite sentences_lower.
  induction (sentences text) as [|s l IH]; [done|].
  cbn [fmap list_fmap]. cbn [omap list_omap].
  rewrite clean_sentence_lower.
  change (list_omap string string) with (@omap list _ string string) in *.
  by rewrite IH.
Qed.

(** X12.  The cleaner does not see the letter case of ASCII text: two
    ASCII texts that are equal once lowercased have the same cleaned
    sentences, and so, in the trained state, the same result whenever a
    sentence survives. *)
Theorem cleaning_ignores_letter_case self text1 text2 :
  Str.is_ascii text1 = true → Str.is_ascii text2 = true →
  Str.lower text1 = Str.lower text2 →
  cleaned cleaning_filler_words self text1
  = cleaned cleaning_filler_words self text2
  ∧ (trained self = true →
     cleaned cleaning_filler_words self text1 ≠ [] →
     clean_transcription self text1 = clean_transcription self text2).
Proof.
  intros _ _ Hlow.
  assert (cleaned cleaning_filler_words self text1
          = cleaned cleaning_filler_words self text2) as Heq.
  { by rewrite <- (cleaned_lower _ _ text1), Hlow, cleaned_lower. }
  split; [done|]. intros Htrained Hne.
  unfold clean_transcription, clean_transcription_with.
  rewrite Htrained, <- Heq. simpl.
  by destruct (cleaned cleaning_filler_words self text1).
Qed.

Lemma cleaning_ignores_letter_case_witness :
  Str.is_ascii "THE Patient has Acute Myocardial INFARCTION" = true
  ∧ Str.lower "THE Patient has Acute Myocardial INFARCTION"
    = Str.lower "the patient has acute myocardial infarction"
  ∧ clean_transcription infarction_vocabulary
      "THE Patient has Acute Myocardial INFARCTION"
    = clean_transcription infarction_vocabulary
        "the patient has acute myocardial infarction".
Proof.
  split; [by vm_compute|]. split; [by vm_compute|].
  apply (cleaning_ignores_letter_case infarction_vocabulary
           "THE Patient has Acute Myocardial INFARCTION"
           "the patient has acute myocardial infarction");
    by vm_compute.
Defined.

(** *** Text without words *)

Lemma lstrip_all p (s : string) : Str.all p s = true → Str.lstrip p s = "".
Proof.
  induction s as [|c s IH]; [done|]. simpl.
  intros [-> Hs]%andb_true_iff. by apply IH.
Qed.

Lemma split_on_fields_all q sep (s : string) :
  Str.all (λ c, q c || bool_decide (c = sep)) s = true →
  Forall (λ f, Str.all q f = true) (Str.split_on sep s).
Proof.
  induction s as [|c s IH]; [by repeat constructor|]. cbn [Str.all Str.split_on].
  intros [Hc Hs]%andb_true_iff. specialize (IH Hs).
  destruct (bool_decide (c = sep)); [by constructor|].
  rewrite orb_false_r in Hc.
  destruct IH as [|f fs Hf Hfs]; constructor; simpl; try done.
  - by rewrite Hc.
  - by rewrite Hc, Hf.
Qed.

(** X13.  A text made only of white space and periods, the empty text
    included, has no sentence and comes back unchanged, trained or not. *)
Theorem text_without_words_is_unchanged self text :
  Str.all (λ c, Char.is_space c || bool_decide (c = "."%char)) text = true →
  sentences text = [] ∧ clean_transcription self text = text.
Proof.
  intros Hblank.
  assert (sentences text = []) as Hnone.
  { unfold sentences.
    pose proof (split_on_fields_all Char.is_space "." text Hblank) as Hfields.
    induction Hfields as [|f fs Hf _ IH]; [done|].
    cbn [fmap list_fmap]. rewrite filter_cons_False; [done|].
    unfold Str.strip. by rewrite lstrip_all. }
  split; [done|]. unfold clean_transcription, clean_transcription_with, cleaned.
  rewrite Hnone. by destruct (trained self).
Qed.

Lemma text_without_words_is_unchanged_witness :
  clean_transcription infarction_vocabulary " . ..  . " = " . ..  . ".
Proof.
  apply (text_without_words_is_unchanged infarction_vocabulary " . ..  . ").
  by vm_compute.
Defined.

(** *** Periods *)

Lemma split_on_no_sep sep (s : string) :
  Forall (λ f, Str.any (λ c, bool_decide (c = sep)) f = false)
         (Str.split_on sep s).
Proof.
  induction s as [|c s IH]; [by repeat constructor|]. cbn [Str.split_on].
  destruct (bool_decide (c = sep)) eqn:Hc; [by constructor|].
  destruct IH as [|f fs Hf Hfs]; constructor; simpl; try done.
  - by rewrite Hc.
  - by rewrite Hc, Hf.
Qed.

Lemma sentences_no_period text :
  Forall (λ s, has_period s = false) (sentences text).
Proof.
  apply Forall_forall. intros s [_ Hin]%list_elem_of_filter.
  apply list_elem_of_fmap in Hin as (f & -> & Hf).
  pose proof (split_on_no_sep "." text) as Hsplit.
  rewrite Forall_forall in Hsplit.
  by apply any_rstrip, any_lstrip, Hsplit.
Qed.

Lemma has_period_lower (s : string) : has_period (Str.lower s) = has_period s.
Proof.
  unfold has_period. induction s as [|c s IH]; [done|]. simpl.
  by rewrite is_dot_lower, IH.
Qed.

Lemma has_period_capitalize (s : string) :
  has_period (Str.capitalize s) = has_period s.
Proof.
  destruct s as [|c s]; [done|]. unfold has_period. simpl.
  rewrite is_dot_upper. f_equal. apply has_period_lower.
Qed.

Lemma runs_go_any q p (s : string) :
  Str.any q s = false →
  Str.any q (Str.runs_go p s).1 = false
  ∧ Forall (λ w, Str.any q w = false) (Str.runs_go p s).2.
Proof.
  induction s as [|c s IH]; [by split|]. simpl.
  intros [Hc Hs]%orb_false_iff. destruct (IH Hs) as [H1 H2].
  rewrite runs_go_cons. destruct (p c); simpl.
  - by rewrite Hc, H1.
  - split; [done|]. unfold Str.runs. destruct (Str.runs_go p s) as [w ws].
    simpl in *. destruct (Str.is_empty w); [done|]. by constructor.
Qed.

Lemma runs_any q p (s : string) :
  Str.any q s = false → Forall (λ w, Str.any q w = false) (Str.runs p s).
Proof.
  intros Hs. destruct (runs_go_any q p s Hs) as [H1 H2]. unfold Str.runs.
  destruct (Str.runs_go p s) as [w ws]. simpl in *.
  destruct (Str.is_empty w); [done|]. by constructor.
Qed.

Lemma join_space_no_period (l : list string) :
  Forall (λ w, has_period w = false) l → has_period (Str.join " " l) = false.
Proof.
  induction 1 as [|x l Hx Hl IH]; [done|].
  destruct l as [|y l]; [done|].
  change (Str.join " " (x :: y :: l)) with (x +:+ " " +:+ Str.join " " (y :: l)).
  unfold has_period in *. rewrite !any_append, Hx, IH. done.
Qed.

Lemma clean_sentence_no_period filler_words self sentence out :
  has_period sentence = false →
  clean_sentence filler_words self sentence = Some out →
  has_period out = false.
Proof.
  intros Hs. unfold clean_sentence.
  assert (Forall (λ w, has_period w = false)
            (kept_words filler_words self (Str.split (Str.lower sentence))))
    as Hkept.
  { apply Forall_forall. intros w Hw.
    apply (sublist_subseteq _ _ (kept_words_sublist filler_words self _)) in Hw.
    apply list_elem_of_fmap in Hw as (w0 & -> & Hw0).
    apply any_rstrip, any_lstrip.
    pose proof (runs_any (λ c, bool_decide (c = "."%char))
                  (λ c, negb (Char.is_space c)) (Str.lower sentence)) as Hruns.
    rewrite Forall_forall in Hruns. apply Hruns; [|done].
    fold (has_period (Str.lower sentence)). by rewrite has_period_lower. }
  destruct Hkept as [|k ks Hk Hks]; [done|]. intros Hout.
  assert (out = Str.join " " (Str.capitalize k :: ks)) as -> by congruence.
  apply join_space_no_period. constructor; [|done].
  by rewrite has_period_capitalize.
Qed.

(** No sentence appended to [cleaned] contains a period. *)
Lemma cleaned_sentences_have_no_period self text :
  Forall (λ s, has_period s = false) (cleaned cleaning_filler_words self text).
Proof.
  apply Forall_forall. intros out Hout. unfold cleaned in Hout.
  apply list_elem_of_omap in Hout as (s & Hs & Hclean).
  pose proof (sentences_no_period text) as Hsent.
  rewrite Forall_forall in Hsent.
  by eapply clean_sentence_no_period, Hclean; apply Hsent.
Qed.

(** ** The queue *)

Section QueueFacts.

Variable getsize : string → option N.

(** What the loop of [add_to_queue] does to the queue and the counter. *)
Lemma add_loop_spec files queue added :
  ∃ new,
    (add_loop getsize files queue added).1.1 = queue ++ new
    ∧ (add_loop getsize files queue added).1.2 = added + length new
    ∧ new `sublist_of` files
    ∧ Forall (within_limit getsize) new
    ∧ (NoDup queue → NoDup (queue ++ new)).
Proof.
  revert queue added. induction files as [|file_path rest IH]; intros queue added.
  { exists []. simpl. rewrite app_nil_r. split_and!; try done; lia. }
  cbn [add_loop]. case_bool_decide as Hin.
  { destruct (IH queue added) as (new & H1 & H2 & H3 & H4 & H5).
    exists new. split_and!; try done. by apply sublist_cons. }
  destruct (getsize file_path) as [bytes|] eqn:Hsize.
  2:{ exists []. simpl. rewrite app_nil_r.
      split_and!; try done; try lia. apply sublist_nil_l. }
  destruct (too_large bytes) eqn:Hlarge.
  { destruct (IH queue added) as (new & H1 & H2 & H3 & H4 & H5).
    exists new. split_and!; try done. by apply sublist_cons. }
  destruct (IH (queue ++ [file_path]) (added + 1)) as (new & H1 & H2 & H3 & H4 & H5).
  exists (file_path :: new). split_and!.
  - by rewrite H1, <- app_assoc.
  - rewrite H2. simpl. lia.
  - by apply sublist_skip.
  - constructor; [by exists bytes|done].
  - intros Hnd. change (file_path :: new) with ([file_path] ++ new).
    rewrite (assoc_L (++) queue [file_path] new). apply H5.
    apply NoDup_app. split_and!; [done| |apply NoDup_singleton].
    intros x Hx ->%list_elem_of_singleton. done.
Qed.

(** A second pass over the same files, on a queue that holds at least
    what the first pass left, changes nothing. *)
Lemma add_loop_again files queue added queue1 added1 :
  add_loop getsize files queue added = (queue1, added1, false) →
  ∀ queue2 added2, queue1 ⊆ queue2 →
    add_loop getsize files queue2 added2 = (queue2, added2, false).
Proof.
  revert queue added. induction files as [|file_path rest IH];
    intros queue added Hfirst queue2 added2 Hsub; [done|].
  cbn [add_loop] in *.
  assert (∀ q a, add_loop getsize rest q a = (queue1, added1, false) → q ⊆ queue1)
    as Hprefix.
  { intros q a Hrun. destruct (add_loop_spec rest q a) as (new & H1 & _).
    rewrite Hrun in H1. simpl in H1. rewrite H1.
    intros x Hx. apply elem_of_app. by left. }
  case_bool_decide as Hin.
  { rewrite bool_decide_eq_true_2 by (by apply Hsub, (Hprefix _ _ Hfirst)).
    by eapply IH. }
  destruct (getsize file_path) as [bytes|] eqn:Hsize; [|done].
  destruct (too_large bytes) eqn:Hlarge.
  - case_bool_decide; [by eapply IH|]. by eapply IH.
  - rewrite bool_decide_eq_true_2.
    2:{ apply Hsub, (Hprefix _ _ Hfirst), elem_of_app. right.
        by apply list_elem_of_singleton. }
    by eapply IH.
Qed.

Lemma add_to_queue_queue files w :
  audio_queue (add_to_queue getsize files w).1
  = (add_loop getsize files (audio_queue w) 0).1.1.
Proof.
  unfold add_to_queue.
  destruct (add_loop getsize files (audio_queue w) 0) as [[queue added] raised].
  destruct raised; [done|]. destruct (0 <? added); [|done].
  by destruct (display_raises getsize queue).
Qed.

(** The invariant of the window. *)
Lemma add_to_queue_buttons files w :
  let w' := (add_to_queue getsize files w).1 in
  processing w' = processing w
  ∧ add_files_btn w' = add_files_btn w
  ∧ add_folder_btn w' = add_folder_btn w
  ∧ (process_btn w' = process_btn w ∧ clear_btn w' = clear_btn w
     ∨ process_btn w' = true ∧ clear_btn w' = true ∧ audio_queue w' ≠ []).
Proof.
  unfold add_to_queue.
  destruct (add_loop_spec files (audio_queue w) 0) as (new & H1 & H2 & _).
  destruct (add_loop getsize files (audio_queue w) 0) as [[queue added] raised].
  simpl in H1, H2. destruct raised; simpl; [split_and!; try done; by left|].
  destruct (Nat.ltb_spec 0 added); simpl; [|split_and!; try done; by left].
  destruct (display_raises getsize queue); simpl;
    [split_and!; try done; by left|].
  split_and!; try done. right. split_and!; try done.
  subst queue. destruct new; [simpl in *; lia|]. by destruct (audio_queue w).
Qed.

End QueueFacts.

Lemma add_files_invariant getsize files w :
  window_invariant getsize w →
  add_files_btn w = true ∨ add_folder_btn w = true →
  window_invariant getsize (add_files getsize files w).
Proof.
  intros [Hnd Hlim Hproc Hclear Hbusy Hidle] Hbtn.
  assert (processing w = false) as Hproc0.
  { destruct (processing w); [|done]. destruct Hbusy as (_ & ? & ?); [done|].
    destruct Hbtn; congruence. }
  unfold add_files. destruct files as [|f fs]; [done|].
  pose proof (add_to_queue_queue getsize (f :: fs) w) as Hq.
  destruct (add_loop_spec getsize (f :: fs) (audio_queue w) 0)
    as (new & H1 & _ & _ & Hnew & Hnd').
  rewrite H1 in Hq.
  destruct (add_to_queue_buttons getsize (f :: fs) w) as (Hp & Ha & Hb & Hbtns).
  split.
  - rewrite Hq. by apply Hnd'.
  - rewrite Hq. by apply Forall_app.
  - destruct Hbtns as [[-> _]|(_ & _ & Hne)]; [|done].
    intros Hon. rewrite Hq. specialize (Hproc Hon).
    by destruct (audio_queue w).
  - destruct Hbtns as [[-> ->]|(-> & -> & _)]; done.
  - rewrite Hp. congruence.
  - rewrite Ha, Hb. intros _. by apply Hidle.
Qed.

Lemma handle_invariant getsize e w :
  window_invariant getsize w → enabled w e = true →
  window_invariant getsize (handle getsize e w).
Proof.
  intros Hinv Hen. destruct e as [files|found|yes|is_trained yes|]; simpl in *.
  - apply add_files_invariant; auto.
  - apply add_files_invariant; auto.
  - unfold clear_queue. destruct yes; [|done].
    destruct Hinv as [Hnd Hlim Hproc Hclear Hbusy Hidle].
    split; simpl; try done.
    + apply NoDup_nil_2.
    + intros Hp. by destruct (Hbusy Hp) as (_ & ? & ?).
  - unfold start_processing. destruct (audio_queue w) as [|a q] eqn:Hq; [done|].
    destruct (negb is_trained && negb yes); [done|].
    destruct Hinv as [Hnd Hlim Hproc Hclear Hbusy Hidle].
    rewrite Hq in *. split; simpl; done.
  - split; simpl; try done. apply NoDup_nil_2.
Qed.

Lemma reachable_invariant getsize w :
  reachable getsize w → window_invariant getsize w.
Proof.
  induction 1 as [|w e _ IH Hen].
  - split; simpl; try done. apply NoDup_nil_2.
  - by apply handle_invariant.
Qed.

(** X15.  [add_to_queue] only appends: the queue afterwards is the queue
    before followed by some of the given files, in the order given; each
    file appended was measured and is not over 100 MB; and a queue without
    duplicates stays without duplicates, even if a file is given twice. *)
Theorem add_to_queue_appends getsize files w :
  ∃ new,
    audio_queue (add_to_queue getsize files w).1 = audio_queue w ++ new
    ∧ new `sublist_of` files
    ∧ Forall (within_limit getsize) new
    ∧ (NoDup (audio_queue w) →
       NoDup (audio_queue (add_to_queue getsize files w).1)).
Proof.
  destruct (add_loop_spec getsize files (audio_queue w) 0)
    as (new & H1 & _ & Hsub & Hnew & Hnd).
  exists new. rewrite add_to_queue_queue, H1. done.
Qed.

(** X16.  Adding the same files a second time changes nothing: if a call
    of [add_to_queue] returns normally, the same call on the window it
    left returns that window. *)
Theorem add_to_queue_twice getsize files w w1 :
  add_to_queue getsize files w = (w1, false) →
  add_to_queue getsize files w1 = (w1, false).
Proof.
  unfold add_to_queue at 1.
  destruct (add_loop getsize files (audio_queue w) 0)
    as [[queue added] raised] eqn:Hloop.
  assert (raised = false → audio_queue w1 = queue →
          add_to_queue getsize files w1 = (w1, false)) as Hagain.
  { intros -> Hq. unfold add_to_queue.
    rewrite (add_loop_again getsize _ _ _ _ _ Hloop (audio_queue w1) 0)
      by (by rewrite Hq).
    simpl. by destruct w1. }
  destruct raised; [done|]. destruct (0 <? added).
  - destruct (display_raises getsize queue); [done|].
    intros [= <-]. by apply Hagain.
  - intros [= <-]. by apply Hagain.
Qed.

Lemma add_to_queue_twice_witness :
  add_to_queue (λ _, Some 5%N) ["a.mp3"; "b.wav"; "a.mp3"] initial_window
  = ({| audio_queue := ["a.mp3"; "b.wav"]; processing := false;
        process_btn := true; add_files_btn := true;
        add_folder_btn := true; clear_btn := true |}, false)
  ∧ add_to_queue (λ _, Some 5%N) ["a.mp3"; "b.wav"; "a.mp3"]
      {| audio_queue := ["a.mp3"; "b.wav"]; processing := false;
         process_btn := true; add_files_btn := true;
         add_folder_btn := true; clear_btn := true |}
    = ({| audio_queue := ["a.mp3"; "b.wav"]; processing := false;
          process_btn := true; add_files_btn := true;
          add_folder_btn := true; clear_btn := true |}, false).
Proof.
  split; [by vm_compute|].
  apply (add_to_queue_twice (λ _, Some 5%N) ["a.mp3"; "b.wav"; "a.mp3"]
           initial_window).
  by vm_compute.
Defined.

(** X17.  Whatever sequence of clicks and finished batches leads to it,
    the queue of the window never holds a file twice and never holds a
    file over 100 MB. *)
Theorem queue_has_no_duplicate_and_no_large_file getsize w :
  reachable getsize w →
  NoDup (audio_queue w) ∧ Forall (within_limit getsize) (audio_queue w).
Proof. intros [Hnd Hlim _ _ _ _]%reachable_invariant. done. Qed.

Lemma queue_has_no_duplicate_and_no_large_file_witness :
  NoDup (audio_queue
           (handle (λ _, Some 5%N) (ClickAddFiles ["a.mp3"; "a.mp3"])
              initial_window))
  ∧ Forall (within_limit (λ _, Some 5%N))
      (audio_queue
         (handle (λ _, Some 5%N) (ClickAddFiles ["a.mp3"; "a.mp3"])
            initial_window)).
Proof.
  apply (queue_has_no_duplicate_and_no_large_file (λ _, Some 5%N)).
  apply reachable_step; [apply reachable_init|done].
Defined.

(** X18.  While a batch is being processed the four buttons are disabled,
    so that the only thing that can happen to the window is the end of
    the batch: nothing changes the queue under the worker. *)
Theorem nothing_but_the_worker_while_processing getsize w :
  reachable getsize w → processing w = true →
  ∀ e, enabled w e = true → e = WorkerDone.
Proof.
  intros [_ _ _ Hclear Hbusy _]%reachable_invariant Hproc e Hen.
  destruct (Hbusy Hproc) as (Hp & Ha & Hf).
  destruct e; simpl in Hen; congruence.
Qed.

Lemma nothing_but_the_worker_while_processing_witness :
  processing
    (handle (λ _, Some 5%N) (ClickProcess true true)
       (handle (λ _, Some 5%N) (ClickAddFiles ["a.mp3"]) initial_window))
  = true
  ∧ ∀ e,
      enabled
        (handle (λ _, Some 5%N) (ClickProcess true true)
           (handle (λ _, Some 5%N) (ClickAddFiles ["a.mp3"]) initial_window))
        e = true →
      e = WorkerDone.
Proof.
  split; [done|].
  apply (nothing_but_the_worker_while_processing (λ _, Some 5%N)
           (handle (λ _, Some 5%N) (ClickProcess true true)
              (handle (λ _, Some 5%N) (ClickAddFiles ["a.mp3"]) initial_window)));
    [|done].
  apply reachable_step; [|done].
  apply reachable_step; [apply reachable_init|done].
Defined.

(** X19.  The Process button is enabled only on a queue that is not
    empty: a click on it never ends in the "No files in queue" error. *)
Theorem process_click_finds_files getsize w is_trained yes :
  reachable getsize w → process_btn w = true →
  audio_queue w ≠ []
  ∧ (start_processing is_trained yes w).2 ≠ NoFilesInQueue.
Proof.
  intros [_ _ Hproc _ _ _]%reachable_invariant Hon.
  specialize (Hproc Hon). split; [done|].
  unfold start_processing. destruct (audio_queue w); [done|].
  by destruct (negb is_trained && negb yes).
Qed.

Lemma process_click_finds_files_witness :
  process_btn (handle (λ _, Some 5%N) (ClickAddFiles ["a.mp3"]) initial_window)
  = true
  ∧ (start_processing true true
       (handle (λ _, Some 5%N) (ClickAddFiles ["a.mp3"]) initial_window)).2
    ≠ NoFilesInQueue.
Proof.
  split; [done|].
  apply (process_click_finds_files (λ _, Some 5%N)
           (handle (λ _, Some 5%N) (ClickAddFiles ["a.mp3"]) initial_window)
           true true); [|done].
  apply reachable_step; [apply reachable_init|done].
Defined.

(** ** The batch worker *)

Section WorkerFacts.

Variable transcribe : string → option string.
Variable basename : string → string.
Variable splitext0 : string → string.
Variable path_join : string → string → string.
Variable generated_at : string → string.
Variable writing : string → file_write.
Variable self : app.
Variable output_dir : string.

Abbreviation round :=
  (process_audio transcribe basename splitext0 path_join generated_at
     writing self output_dir).
Abbreviation batch :=
  (worker transcribe basename splitext0 path_join generated_at
     writing self output_dir).
Abbreviation target := (output_file basename splitext0 path_join output_dir).
Abbreviation opens := (opened transcribe writing).
Abbreviation leaves :=
  (left_in_file transcribe basename generated_at writing self).

Lemma process_audio_lookup disk a p :
  round disk a !! p
  = if decide (opens a = true ∧ target a = p) then leaves a else disk !! p.
Proof.
  unfold process_audio, opened, left_in_file.
  destruct (transcribe a) as [raw|]; simpl; [|done].
  destruct (writing a) as [| |flushed]; simpl; [|done|].
  - destruct (decide (target a = p)) as [<-|Hne].
    + rewrite lookup_insert_eq. by rewrite decide_True.
    + rewrite lookup_insert_ne by done. rewrite decide_False; [done|].
      by intros [_ ?].
  - destruct (decide (target a = p)) as [<-|Hne].
    + rewrite lookup_insert_eq. by rewrite decide_True.
    + rewrite lookup_insert_ne by done. rewrite decide_False; [done|].
      by intros [_ ?].
Qed.

Lemma worker_lookup queue disk p :
  batch queue disk !! p
  = match last (filter (λ a, opens a = true ∧ target a = p) queue) with
    | Some a => leaves a
    | None => disk !! p
    end.
Proof.
  unfold worker. revert disk. induction queue as [|a queue IH]; intros disk.
  { done. }
  cbn [foldl]. rewrite IH, process_audio_lookup, filter_cons.
  destruct (decide (opens a = true ∧ target a = p)) as [Ha|Ha]; [|done].
  rewrite last_cons.
  by destruct (last (filter (λ a, opens a = true ∧ target a = p) queue)).
Qed.

Lemma worker_dom queue disk :
  dom (batch queue disk)
  = dom disk ∪ list_to_set (target <$> filter (λ a, opens a = true) queue).
Proof.
  unfold worker. revert disk. induction queue as [|a queue IH]; intros disk.
  { simpl. by rewrite (right_id_L ∅ (∪)). }
  cbn [foldl]. rewrite IH, filter_cons.
  assert (dom (round disk a)
          = dom disk ∪ (if opens a then {[target a]} else ∅)) as ->.
  { unfold process_audio, opened. destruct (transcribe a) as [raw|].
    - destruct (writing a) as [| |flushed]; simpl.
      + rewrite dom_insert_L. apply (comm_L (∪)).
      + by rewrite (right_id_L ∅ (∪)).
      + rewrite dom_insert_L. apply (comm_L (∪)).
    - by rewrite (right_id_L ∅ (∪)). }
  destruct (opens a) eqn:Ha.
  - rewrite decide_True by done. cbn [fmap list_fmap list_to_set].
    by rewrite (assoc_L (∪)).
  - rewrite decide_False by done. by rewrite (right_id_L ∅ (∪)).
Qed.

Lemma worker_skips queue1 a queue2 disk :
  opens a = false →
  batch (queue1 ++ a :: queue2) disk = batch (queue1 ++ queue2) disk.
Proof.
  intros Ha. unfold worker. rewrite !foldl_app. cbn [foldl]. f_equal.
  unfold process_audio, opened in *.
  destruct (transcribe a); [|done]. by destruct (writing a).
Qed.

End WorkerFacts.

(** X20.  The batch creates or overwrites exactly the output files of the
    audio files that were transcribed and whose output file could be
    opened, whether or not the write that followed went through; every
    other file of the folder is as it was. *)
Theorem batch_writes_transcribed_files
    transcribe basename splitext0 path_join generated_at writing self
    output_dir queue disk :
  dom (worker transcribe basename splitext0 path_join generated_at writing
         self output_dir queue disk)
  = dom disk
    ∪ list_to_set
        (output_file basename splitext0 path_join output_dir
           <$> filter (λ a, opened transcribe writing a = true) queue)
  ∧ ∀ p,
      p ∉ (output_file basename splitext0 path_join output_dir
             <$> filter (λ a, opened transcribe writing a = true) queue) →
      worker transcribe basename splitext0 path_join generated_at writing
        self output_dir queue disk !! p = disk !! p.
Proof.
  split; [apply worker_dom|]. intros p Hp. rewrite worker_lookup.
  destruct (last _) as [a|] eqn:Hlast; [|done].
  exfalso. apply Hp. apply last_Some_elem_of in Hlast.
  apply list_elem_of_filter in Hlast as [[Hw <-] Hin].
  apply list_elem_of_fmap. exists a. split; [done|].
  by apply list_elem_of_filter.
Qed.

(** X21.  Output files are named after the audio file without its folder
    and extension, so two audio files can share one: after the batch an
    output file holds what the last audio file of the queue that opened it
    left there, which is its formatted, cleaned transcript if the write
    went through and only the part already written (possibly nothing) if
    the write raised; an earlier transcript in that file is lost either
    way. *)
Theorem last_transcript_wins
    transcribe basename splitext0 path_join generated_at writing self
    output_dir queue disk p :
  worker transcribe basename splitext0 path_join generated_at writing
    self output_dir queue disk !! p
  = match last (filter
                  (λ a, opened transcribe writing a = true
                        ∧ output_file basename splitext0 path_join
                            output_dir a = p) queue) with
    | Some a =>
        match transcribe a, writing a with
        | Some raw, Written =>
            Some (content basename generated_at a (clean_transcription self raw))
        | Some raw, WriteRaises flushed =>
            Some (Str.prefix flushed
                    (content basename generated_at a
                       (clean_transcription self raw)))
        | _, _ => None
        end
    | None => disk !! p
    end.
Proof.
  rewrite worker_lookup. destruct (last _) as [a|]; [|done].
  unfold left_in_file. destruct (transcribe a); [|done].
  by destruct (writing a).
Qed.

(** X22.  An audio file whose transcription raises, or whose output file
    cannot be opened, is skipped and the batch goes on: the result is the
    one of the queue without that file. *)
Theorem failed_audio_file_is_skipped
    transcribe basename splitext0 path_join generated_at writing self
    output_dir queue1 a queue2 disk :
  transcribe a = None ∨ writing a = OpenRaises →
  worker transcribe basename splitext0 path_join generated_at writing
    self output_dir (queue1 ++ a :: queue2) disk
  = worker transcribe basename splitext0 path_join generated_at writing
      self output_dir (queue1 ++ queue2) disk.
Proof.
  intros Hfail. apply worker_skips. unfold opened.
  destruct Hfail as [->| ->]; [done|]. by destruct (transcribe a).
Qed.

Lemma failed_audio_file_is_skipped_witness :
  worker (λ a, if bool_decide (a = "bad.mp3") then None else Some "Um, hello.")
    id id (λ d f, d +:+ "/" +:+ f) (λ _, "2024-01-01 00:00:00") (λ _, Written)
    init "out" (["a.mp3"] ++ "bad.mp3" :: ["b.mp3"]) ∅
  = worker (λ a, if bool_decide (a = "bad.mp3") then None else Some "Um, hello.")
      id id (λ d f, d +:+ "/" +:+ f) (λ _, "2024-01-01 00:00:00") (λ _, Written)
      init "out" (["a.mp3"] ++ ["b.mp3"]) ∅.
Proof.
  apply (failed_audio_file_is_skipped
           (λ a, if bool_decide (a = "bad.mp3") then None else Some "Um, hello.")
           id id (λ d f, d +:+ "/" +:+ f) (λ _, "2024-01-01 00:00:00")
           (λ _, Written) init "out" ["a.mp3"] "bad.mp3" ["b.mp3"] ∅).
  by left.
Defined.

(** ** The scan ends where the sentence ends *)

Lemma while_loop_in_range filler_words self fuel words s :
  s.1 ≤ length words →
  (while_loop filler_words self fuel words s).1 ≤ length words.
Proof.
  revert s. induction fuel as [|fuel IH]; intros [i kept];
    cbn [while_loop fst snd]; intros Hi; [done|].
  destruct (Nat.ltb_spec i (length words)); [|done].
  by apply IH, loop_step_in_range.
Qed.

(** X23.  The loop over the words of a sentence ends: after at most
    [len(words)] rounds the cursor stands exactly at [len(words)], never
    beyond it (so [words[i+1]] and [words[i+2]] are read inside the list
    only), and further rounds would change nothing. *)
Theorem scan_ends_at_the_last_word self (words : list string) extra :
  (while_loop cleaning_filler_words self (length words) words (0, [])).1
  = length words
  ∧ while_loop cleaning_filler_words self (length words + extra) words (0, [])
    = while_loop cleaning_filler_words self (length words) words (0, []).
Proof.
  split.
  - apply Nat.le_antisymm.
    + apply while_loop_in_range. simpl. lia.
    + apply while_loop_exits. simpl. lia.
  - apply while_loop_enough. simpl. lia.
Qed.

(** ** When the tokens are the runs of letters *)

Lemma word_is_letter_after_lower c :
  Char.is_digit c || bool_decide (c = "_"%char) = false →
  Char.is_word (Char.lower c) = Char.is_az (Char.lower c).
Proof. by destruct c as [[] [] [] [] [] [] [] []]. Qed.

Lemma runs_go_ext p q (s : string) :
  Str.all (λ c, bool_decide (p c = q c)) s = true →
  Str.runs_go p s = Str.runs_go q s.
Proof.
  induction s as [|c s IH]; [done|]. simpl.
  intros [Hc%bool_decide_eq_true Hs]%andb_true_iff.
  rewrite !runs_go_cons. unfold Str.runs. by rewrite Hc, IH.
Qed.

Lemma filter_all_runs p (s : string) :
  filter (λ w, Str.all p w = true) (Str.runs p s) = Str.runs p s.
Proof.
  pose proof (runs_all p s) as Hall.
  induction Hall as [|w ws [_ Hw] _ IH]; [done|].
  by rewrite filter_cons_True, IH.
Qed.

(** X24.  On an ASCII text without digit and without underscore the
    tokenizer does extract the maximal runs of letters of the lowercased
    text. *)
Theorem tokens_are_letter_runs_without_digits text :
  Str.is_ascii text = true →
  Str.any (λ c, Char.is_digit c || bool_decide (c = "_"%char)) text = false →
  tokenize text = letter_runs text.
Proof.
  intros _ Hnone. rewrite tokenize_spec. unfold letter_only_words, letter_runs.
  assert (Str.runs Char.is_word (Str.lower text)
          = Str.runs Char.is_az (Str.lower text)) as ->.
  { unfold Str.runs. rewrite (runs_go_ext Char.is_word Char.is_az); [done|].
    induction text as [|c s IH]; [done|]. simpl in *.
    apply orb_false_iff in Hnone as [Hc Hs].
    rewrite IH, andb_true_r by done.
    apply bool_decide_eq_true. by apply word_is_letter_after_lower. }
  apply filter_all_runs.
Qed.

Lemma tokens_are_letter_runs_without_digits_witness :
  tokenize "The patient's X-ray" = letter_runs "The patient's X-ray".
Proof.
  apply (tokens_are_letter_runs_without_digits "The patient's X-ray");
    by vm_compute.
Defined.

(** ** The loop and the scan of the stripped words *)

Section StrippedScan.

Variable filler_words : gset string.
Variable self : app.

Lemma drop_lookup_None (words : list string) i :
  words !! i = None → drop i words = [].
Proof. intros Hi%lookup_ge_None. by apply drop_ge. Qed.

Lemma while_loop_scan fuel words i kept :
  length words ≤ fuel + i → i ≤ length words →
  (while_loop filler_words self fuel words (i, kept)).2
  = kept ++ scan_stripped filler_words self
              (Str.strip Char.is_punct <$> drop i words).
Proof.
  revert i kept. induction fuel as [|fuel IH]; intros i kept Hfuel Hi;
    cbn [while_loop fst snd].
  { rewrite drop_ge by lia. by rewrite app_nil_r. }
  destruct (Nat.ltb_spec i (length words)) as [Hlt|Hge].
  2:{ rewrite drop_ge by lia. by rewrite app_nil_r. }
  destruct (lookup_lt_is_Some_2 words i Hlt) as [w0 H0].
  unfold loop_step, trigram_matches, bigram_matches, trigram_at, bigram_at,
    stripped, item.
  replace (i + 1) with (S i) by lia. replace (i + 2) with (S (S i)) by lia.
  replace (i + 3) with (S (S (S i))) by lia.
  rewrite (drop_S _ _ _ H0), H0. cbn [default fmap list_fmap].
  destruct (words !! S i) as [w1|] eqn:H1.
  - pose proof (lookup_lt_Some _ _ _ H1) as Hlt1.
    destruct (Nat.ltb_spec i (length words - 1)) as [_|?]; [|lia].
    rewrite (drop_S _ _ _ H1). cbn [default fmap list_fmap andb].
    destruct (words !! S (S i)) as [w2|] eqn:H2.
    + pose proof (lookup_lt_Some _ _ _ H2) as Hlt2.
      destruct (Nat.ltb_spec i (length words - 2)) as [_|?]; [|lia].
      rewrite (drop_S _ _ _ H2). cbn [default fmap list_fmap andb scan_stripped].
      destruct (bool_decide (_ ∈ medical_phrases self)) eqn:Htri.
      { rewrite IH by lia. by rewrite <- app_assoc. }
      destruct (_ || _) eqn:Hbi.
      { rewrite IH by lia. rewrite (drop_S _ _ _ H2). by rewrite <- app_assoc. }
      rewrite IH by lia. rewrite (drop_S _ _ _ H1), (drop_S _ _ _ H2).
      destruct (keeps_single _ _ _); cbn [fmap list_fmap];
        by rewrite <- ?app_assoc.
    + pose proof (lookup_ge_None_1 _ _ H2) as Hge2.
      destruct (Nat.ltb_spec i (length words - 2)) as [?|_]; [lia|].
      rewrite (drop_lookup_None _ _ H2). cbn [default fmap list_fmap andb scan_stripped].
      destruct (_ || _) eqn:Hbi.
      { rewrite IH by lia. rewrite (drop_lookup_None _ _ H2).
        by rewrite <- app_assoc. }
      rewrite IH by lia. rewrite (drop_S _ _ _ H1), (drop_lookup_None _ _ H2).
      destruct (keeps_single _ _ _); cbn [fmap list_fmap];
        by rewrite <- ?app_assoc.
  - pose proof (lookup_ge_None_1 _ _ H1) as Hge1.
    destruct (Nat.ltb_spec i (length words - 2)) as [?|_]; [lia|].
    destruct (Nat.ltb_spec i (length words - 1)) as [?|_]; [lia|].
    rewrite (drop_lookup_None _ _ H1). cbn [default fmap list_fmap andb scan_stripped].
    rewrite IH by lia. rewrite (drop_lookup_None _ _ H1).
    destruct (keeps_single _ _ _); cbn [fmap list_fmap scan_stripped];
      by rewrite <- ?app_assoc.
Qed.

Lemma kept_words_scan words :
  kept_words filler_words self words
  = scan_stripped filler_words self (Str.strip Char.is_punct <$> words).
Proof. unfold kept_words. by rewrite while_loop_scan by (simpl; lia). Qed.

End StrippedScan.

(** C6 (amended).  During cleaning the words are compared and kept in one
    and the same form, lowercased and with [. , ; ! ?] stripped from both
    ends: the kept words of a sentence are what the scan gives when it is
    run on the list of stripped words alone, building the two- and
    three-word strings it looks up in terms and phrases, and the word it
    looks up in terms and in the stoplist, from these stripped words; so
    they are a subsequence of the stripped lowercased words.  The sentence
    put out (for ASCII text) is these words joined by single spaces, the
    first one capitalised; it is dropped when no word is kept. *)
Theorem kept_words_are_stripped_lowercase self sentence :
  Str.is_ascii sentence = true →
  (∀ words,
     kept_words cleaning_filler_words self words
     = scan_stripped cleaning_filler_words self
         (Str.strip Char.is_punct <$> words))
  ∧ kept_words cleaning_filler_words self (Str.split (Str.lower sentence))
      `sublist_of` (Str.strip Char.is_punct <$> Str.split (Str.lower sentence))
  ∧ clean_sentence cleaning_filler_words self sentence
    = match scan_stripped cleaning_filler_words self
              (Str.strip Char.is_punct <$> Str.split (Str.lower sentence)) with
      | [] => None
      | k :: ks => Some (Str.join " " (Str.capitalize k :: ks))
      end.
Proof.
  intros _. split_and!.
  - apply kept_words_scan.
  - apply kept_words_sublist.
  - unfold clean_sentence. by rewrite kept_words_scan.
Qed.

Lemma kept_words_are_stripped_lowercase_witness :
  Str.is_ascii "Um, the Patient has Acute myocardial infarction!" = true
  ∧ scan_stripped cleaning_filler_words infarction_vocabulary
      (Str.strip Char.is_punct
         <$> Str.split
               (Str.lower "Um, the Patient has Acute myocardial infarction!"))
    = ["the"; "patient"; "has"; "acute"; "myocardial"; "infarction"]
  ∧ clean_sentence cleaning_filler_words infarction_vocabulary
      "Um, the Patient has Acute myocardial infarction!"
    = match scan_stripped cleaning_filler_words infarction_vocabulary
              (Str.strip Char.is_punct
                 <$> Str.split
                       (Str.lower
                          "Um, the Patient has Acute myocardial infarction!"))
      with
      | [] => None
      | k :: ks => Some (Str.join " " (Str.capitalize k :: ks))
      end.
Proof.
  split; [by vm_compute|]. split; [by vm_compute|].
  apply (kept_words_are_stripped_lowercase infarction_vocabulary
           "Um, the Patient has Acute myocardial infarction!").
  by vm_compute.
Defined.

(** ** Periods of the cleaned text *)

Lemma period_count_append (s1 s2 : string) :
  period_count (s1 +:+ s2) = period_count s1 + period_count s2.
Proof. induction s1 as [|c s1 IH]; simpl; [done|]. rewrite IH. lia. Qed.

Lemma no_period_count (s : string) : has_period s = false → period_count s = 0.
Proof.
  unfold has_period. induction s as [|c s IH]; simpl; [done|].
  intros [-> Hs]%orb_false_iff. by rewrite IH.
Qed.

Lemma period_count_join (l : list string) :
  Forall (λ s, has_period s = false) l →
  period_count (Str.join ". " l) = length l - 1.
Proof.
  induction 1 as [|x l Hx Hl IH]; [done|].
  destruct l as [|y l]; [simpl; by rewrite no_period_count|].
  change (Str.join ". " (x :: y :: l))
    with (x +:+ ". " +:+ Str.join ". " (y :: l)).
  rewrite !period_count_append, IH, (no_period_count x Hx). simpl. lia.
Qed.

(** X14.  In the trained state, when at least one sentence of an ASCII
    text survives, the text returned is the surviving sentences joined by
    a period and a space, with a final period, and these are its only
    periods: it holds exactly one period per surviving sentence. *)
Theorem cleaned_text_has_one_period_per_sentence self text :
  Str.is_ascii text = true →
  trained self = true →
  cleaned cleaning_filler_words self text ≠ [] →
  clean_transcription self text
  = Str.join ". " (cleaned cleaning_filler_words self text) +:+ "."
  ∧ Forall (λ s, has_period s = false) (cleaned cleaning_filler_words self text)
  ∧ period_count (clean_transcription self text)
    = length (cleaned cleaning_filler_words self text).
Proof.
  intros _ Htrained Hne.
  assert (clean_transcription self text
          = Str.join ". " (cleaned cleaning_filler_words self text) +:+ ".")
    as Hout.
  { unfold clean_transcription, clean_transcription_with. rewrite Htrained.
    simpl. by destruct (cleaned cleaning_filler_words self text). }
  pose proof (cleaned_sentences_have_no_period self text) as Hnone.
  split_and!; [done..|].
  rewrite Hout, period_count_append, period_count_join by done.
  destruct (cleaned cleaning_filler_words self text); [done|]. simpl. lia.
Qed.

Lemma cleaned_text_has_one_period_per_sentence_witness :
  Str.is_ascii "Um, fever. Well. Acute myocardial infarction, right." = true
  ∧ trained infarction_vocabulary = true
  ∧ cleaned cleaning_filler_words infarction_vocabulary
      "Um, fever. Well. Acute myocardial infarction, right."
    = ["Fever"; "Acute myocardial infarction"]
  ∧ period_count
      (clean_transcription infarction_vocabulary
         "Um, fever. Well. Acute myocardial infarction, right.")
    = length
        (cleaned cleaning_filler_words infarction_vocabulary
           "Um, fever. Well. Acute myocardial infarction, right.").
Proof.
  split; [by vm_compute|]. split; [done|]. split; [by vm_compute|].
  apply (cleaned_text_has_one_period_per_sentence infarction_vocabulary
           "Um, fever. Well. Acute myocardial infarction, right.");
    by vm_compute.
Defined.
